(** * content-scrape.js: page extraction and the fetch pipeline

    A shallow embedding of [src/content-scrape.js].  JavaScript strings
    are sequences of UTF-16 code units, so a string is a [list N]; the
    value [undefined] of an attribute or property lookup is [None]; a
    statement that can throw returns an [option] or a [result].

    The script runs on a platform it does not define: the WHATWG [URL]
    constructor, the HTML parser behind [cheerio.load], the network
    and the file system.  They are the fields of the class [Env], and
    every property below holds for every environment.  The cheerio
    operations the script calls are defined on a small document tree.

    The first part holds the definitions, in the order of the source;
    the second part the properties. *)

From Stdlib Require Import NArith Ascii String.
From stdpp Require Import gmap list strings.

#[local] Set Warnings "-clear-no-such-hyp".
#[local] Set Warnings "-register-all".

Local Open Scope N_scope.

(** ** JavaScript strings *)

Abbreviation jsstring := (list N).

(** An ASCII literal as a JavaScript string. *)
Definition js (s : string) : jsstring :=
  (fun a => N_of_ascii a) <$> list_ascii_of_string s.

(** [x || d] for [x] a string or [undefined]: the empty string and
    [undefined] are the two falsy values. *)
Definition or_else (x : option jsstring) (d : jsstring) : jsstring :=
  match x with
  | Some (c :: s) => c :: s
  | _ => d
  end.

(** Truthiness of a string-or-undefined value. *)
Definition truthy (x : option jsstring) : bool :=
  match x with
  | Some (_ :: _) => true
  | _ => false
  end.

(** The regular-expression class [\s] (ECMAScript WhiteSpace and
    LineTerminator); [String.prototype.trim] strips the same set. *)
Definition is_js_space (c : N) : bool :=
  bool_decide (c ∈ [9; 10; 11; 12; 13; 32; 160; 5760; 8232; 8233; 8239; 8287; 12288; 65279])
  || ((8192 <=? c) && (c <=? 8202)).

Definition SP : N := 32.
Definition NBSP : N := 160.

(** [.replace(/\s+/g, " ")]: every maximal run of [\s] becomes one
    space.  [in_run] tells that the previous unit belonged to a run. *)
Fixpoint replace_ws_runs (in_run : bool) (s : jsstring) : jsstring :=
  match s with
  | [] => []
  | c :: t =>
      if is_js_space c
      then (if in_run then replace_ws_runs true t else SP :: replace_ws_runs true t)
      else c :: replace_ws_runs false t
  end.

(** [.replace(/\u00A0/g, " ")]. *)
Definition replace_nbsp (s : jsstring) : jsstring :=
  (fun c => if c =? NBSP then SP else c) <$> s.

Fixpoint trimStart (s : jsstring) : jsstring :=
  match s with
  | [] => []
  | c :: t => if is_js_space c then trimStart t else s
  end.

Fixpoint trimEnd (s : jsstring) : jsstring :=
  match s with
  | [] => []
  | c :: t =>
      match trimEnd t with
      | [] => if is_js_space c then [] else [c]
      | r => c :: r
      end
  end.

Definition trim (s : jsstring) : jsstring := trimEnd (trimStart s).

(** [cleanText], lines 36-42. *)
Definition cleanText (s : jsstring) : jsstring :=
  match s with
  | [] => []
  | _ => trim (replace_nbsp (replace_ws_runs false s))
  end.

(** The words of a string: its maximal runs of non-whitespace units,
    in order.  [cur] is the word being read, reversed. *)
Fixpoint words_from (cur : jsstring) (s : jsstring) : list jsstring :=
  match s with
  | [] => match cur with [] => [] | _ => [reverse cur] end
  | c :: t =>
      if is_js_space c
      then match cur with
           | [] => words_from [] t
           | _ => reverse cur :: words_from [] t
           end
      else words_from (c :: cur) t
  end.

Definition words (s : jsstring) : list jsstring := words_from [] s.

Fixpoint join_sp (ws : list jsstring) : jsstring :=
  match ws with
  | [] => []
  | [w] => w
  | w :: rest => w ++ SP :: join_sp rest
  end.

(** The normal form the specification describes: the words of the
    text separated by single ASCII spaces, nothing before the first
    word and nothing after the last. *)
Definition normalize_spec (s : jsstring) : jsstring := join_sp (words s).

(** ** The parsed document and the cheerio operations the script uses *)

Inductive node :=
| Text (data : jsstring)
| Comment (data : jsstring)
| Elem (name : jsstring) (attribs : list (jsstring * jsstring)) (children : list node).

(** A cheerio selection: the selected nodes in document order. *)
Abbreviation selection := (list node).

Fixpoint assoc (k : jsstring) (l : list (jsstring * jsstring)) : option jsstring :=
  match l with
  | [] => None
  | (k', v) :: r => if bool_decide (k' = k) then Some v else assoc k r
  end.

Definition node_attr (a : jsstring) (n : node) : option jsstring :=
  match n with
  | Elem _ attribs _ => assoc a attribs
  | _ => None
  end.

(** The nodes below [n], in document order. *)
Fixpoint descendants (n : node) : list node :=
  match n with
  | Elem _ _ cs => flat_map (fun c => c :: descendants c) cs
  | _ => []
  end.

(** The text of a node: the data of the text nodes below it. *)
Fixpoint textContent (n : node) : jsstring :=
  match n with
  | Text d => d
  | Comment _ => []
  | Elem _ _ cs => flat_map textContent cs
  end.

Inductive simple_selector :=
| ByTag (t : jsstring)                (* [t] *)
| ByClass (c : jsstring)              (* [.c] *)
| ByTagClass (t c : jsstring)         (* [t.c] *)
| ByAttr (a : jsstring).              (* [[a]] *)

(** A selector list [s1, s2, ...]. *)
Abbreviation selector := (list simple_selector).

Definition has_tag (t : jsstring) (n : node) : bool :=
  match n with
  | Elem name _ _ => bool_decide (name = t)
  | _ => false
  end.

Definition has_class (c : jsstring) (n : node) : bool :=
  match node_attr (js "class") n with
  | Some v => bool_decide (c ∈ words v)
  | None => false
  end.

Definition has_attr (a : jsstring) (n : node) : bool :=
  match node_attr a n with
  | Some _ => true
  | None => false
  end.

Definition matches_simple (s : simple_selector) (n : node) : bool :=
  match s with
  | ByTag t => has_tag t n
  | ByClass c => match n with Elem _ _ _ => has_class c n | _ => false end
  | ByTagClass t c => has_tag t n && has_class c n
  | ByAttr a => has_attr a n
  end.

Definition matches (sel : selector) (n : node) : bool :=
  existsb (fun s => matches_simple s n) sel.

(** [$(sel)] on a loaded document. *)
Definition select (sel : selector) (doc : list node) : selection :=
  filter (fun n => matches sel n = true) (flat_map (fun n => n :: descendants n) doc).

(** [.find(sel)]: matching descendants, in document order.  The
    script only calls it on selections of at most one element. *)
Definition find (sel : selector) (s : selection) : selection :=
  filter (fun n => matches sel n = true) (flat_map descendants s).

Definition is_elem (n : node) : bool :=
  match n with
  | Elem _ _ _ => true
  | _ => false
  end.

(** [.children()]: the element children. *)
Definition children (s : selection) : selection :=
  flat_map (fun n => match n with
                     | Elem _ _ cs => filter (fun c => is_elem c = true) cs
                     | _ => []
                     end) s.

(** [.first()]. *)
Definition first (s : selection) : selection := take 1 s.

(** [.attr(a)]: the attribute of the first selected element, or
    [undefined]. *)
Definition attr (a : jsstring) (s : selection) : option jsstring :=
  match s with
  | n :: _ => node_attr a n
  | [] => None
  end.

(** [.text()]. *)
Definition text (s : selection) : jsstring := flat_map textContent s.

(** ** The style regular expression, line 118

    [/background-image\s*:\s*url\((Q?)(.*?)\1\)/i], where the class
    [Q] holds the single and the double quote. *)

Definition lower (c : N) : N := if (65 <=? c) && (c <=? 90) then c + 32 else c.

(** A literal matched without regard to ASCII case; the rest of the
    subject after it. *)
Fixpoint match_lit_i (lit s : jsstring) : option jsstring :=
  match lit, s with
  | [], _ => Some s
  | a :: lit', b :: s' => if lower a =? lower b then match_lit_i lit' s' else None
  | _ :: _, [] => None
  end.

(** What [.] refuses. *)
Definition is_line_terminator (c : N) : bool :=
  bool_decide (c ∈ [10; 13; 8232; 8233]).

(** [s.startsWith(p)]. *)
Fixpoint starts_with (p s : jsstring) : bool :=
  match p, s with
  | [], _ => true
  | a :: p', b :: s' => (a =? b) && starts_with p' s'
  | _ :: _, [] => false
  end.

(** The lazy [(.*?)] followed by [close]: the shortest run of units
    other than line terminators after which [close] stands. *)
Fixpoint lazy_dot_until (close : jsstring) (s : jsstring) : option jsstring :=
  if starts_with close s then Some []
  else match s with
       | [] => None
       | c :: t => if is_line_terminator c then None
                   else cons c <$> lazy_dot_until close t
       end.

Definition QUOTE : N := 39.
Definition DQUOTE : N := 34.
Definition RPAREN : N := 41.

(** Capture group 2 of a match that starts at the head of [s].  The
    optional quote is tried first and given up on backtracking. *)
Definition match_bg_here (s : jsstring) : option jsstring :=
  r1 ← match_lit_i (js "background-image") s;
  r2 ← match_lit_i (js ":") (trimStart r1);
  r3 ← match_lit_i (js "url(") (trimStart r2);
  match r3 with
  | q :: r4 =>
      if bool_decide (q = QUOTE) || bool_decide (q = DQUOTE)
      then match lazy_dot_until [q; RPAREN] r4 with
           | Some u => Some u
           | None => lazy_dot_until [RPAREN] r3
           end
      else lazy_dot_until [RPAREN] r3
  | [] => None
  end.

(** [style.match(re)]: capture group 2 of the leftmost match. *)
Fixpoint match_bg (s : jsstring) : option jsstring :=
  match match_bg_here s with
  | Some u => Some u
  | None => match s with
            | [] => None
            | _ :: t => match_bg t
            end
  end.

(** The declarations the expression is meant for:
    [background-image : url(Q u Q)] with [u] the URL and [Q] its
    quoting. *)



(** ** Records *)

Record tile := Tile {
  heading : jsstring;
  description : jsstring;
  linkTitle : jsstring;
  linkUrl : jsstring }.

#[global] Instance tile_eq_dec : EqDecision tile.
Proof. solve_decision. Defined.

(** The object [extractPageData] returns, lines 192-220. *)
Record PageRecord := {
  url : jsstring;
  banner_image : jsstring;
  banner_title : jsstring;
  banner_description : jsstring;
  banner_button_text : jsstring;
  banner_button_link : jsstring;
  main_description : jsstring;
  video_heading : jsstring;
  video_embed_url : jsstring;
  tile1_heading : jsstring;
  tile1_description : jsstring;
  tile1_link_title : jsstring;
  tile1_link_url : jsstring;
  tile2_heading : jsstring;
  tile2_description : jsstring;
  tile2_link_title : jsstring;
  tile2_link_url : jsstring;
  tile3_heading : jsstring;
  tile3_description : jsstring;
  tile3_link_title : jsstring;
  tile3_link_url : jsstring }.

Definition empty_tile : tile := Tile [] [] [] [].

Definition nonempty (s : jsstring) : bool :=
  match s with
  | [] => false
  | _ :: _ => true
  end.

(** The selectors of the script. *)
Definition sel_banner : selector := [ByTagClass (js "div") (js "banner")].
Definition sel_main_description : selector := [ByTagClass (js "div") (js "main-description")].
Definition sel_video : selector := [ByTagClass (js "div") (js "article-video")].
Definition sel_tiles_wrap : selector := [ByTagClass (js "div") (js "related-articles")].
Definition sel_img : selector := [ByTag (js "img")].
Definition sel_h1 : selector := [ByTag (js "h1")].
Definition sel_h2 : selector := [ByTag (js "h2")].
Definition sel_p : selector := [ByTag (js "p")].
Definition sel_a : selector := [ByTag (js "a")].
Definition sel_a_button : selector := [ByTag (js "a"); ByTag (js "button")].
Definition sel_h123 : selector := [ByTag (js "h1"); ByTag (js "h2"); ByTag (js "h3")].
Definition sel_h1234 : selector :=
  [ByTag (js "h1"); ByTag (js "h2"); ByTag (js "h3"); ByTag (js "h4")].
Definition sel_iframe : selector := [ByTag (js "iframe")].
Definition sel_data_src : selector := [ByAttr (js "data-src")].
Definition sel_tile_items : selector :=
  [ByClass (js "tile"); ByClass (js "card"); ByTag (js "article"); ByTag (js "li");
   ByClass (js "related-article")].

(** A settled promise: the value, or the [message] of the error it
    rejected with. *)
Inductive result (A : Type) :=
| Ok (a : A)
| Err (message : jsstring).
Arguments Ok {A} a.
Arguments Err {A} message.

(** One [<url>] or [<sitemap>] element as xml2js returns it: [loc] is
    the array of its [<loc>] children, [undefined] when it has none. *)
Record sm_entry := { loc : option (list jsstring) }.

(** The object [parseStringPromise] resolves to, as far as the script
    reads it: [parsed.urlset?.url] and [parsed.sitemapindex?.sitemap].
    Either is [undefined] when the root element has another name and
    when it has no child of the name asked for. *)
Record sitemap_xml := {
  urlset_url : option (list sm_entry);
  sitemapindex_sitemap : option (list sm_entry) }.

(** What a run finds outside the script. *)
Class Env := {
  (** [new URL(rel, base).toString()]; [None] when the constructor
      throws. *)
  URL_toString : jsstring -> jsstring -> option jsstring;
  (** [cheerio.load(html)]: the top-level nodes of the parsed page. *)
  cheerio_load : jsstring -> list node;
  (** [fetchHtml(url)], lines 53-64: the body, or the rejection on a
      network error, a timeout or a status outside [200, 400). *)
  fetchHtml : jsstring -> result jsstring;
  (** [axios.get(sitemapUrl)] followed by [parseStringPromise]. *)
  fetchSitemapXml : jsstring -> result sitemap_xml;
  (** [fs.readFileSync(path, "utf8")]. *)
  readFileSync : jsstring -> result jsstring }.

Section Extract.

Context `{Env}.

(** [absolutizeUrl], lines 44-51.  The argument is a string or
    [undefined]. *)
Definition absolutizeUrl (maybeRelative : option jsstring) (pageUrl : jsstring) : jsstring :=
  match maybeRelative with
  | Some (c :: r) =>
      match URL_toString (c :: r) pageUrl with
      | Some u => u
      | None => c :: r
      end
  | _ => []
  end.

(** Lines 108-120. *)
Definition bannerImage (doc : list node) (pageUrl : jsstring) : jsstring :=
  let banner := first (select sel_banner doc) in
  let imgSrc := attr (js "src") (first (find sel_img banner)) in
  if truthy imgSrc then absolutizeUrl imgSrc pageUrl
  else
    let style := or_else (attr (js "style") banner) [] in
    match match_bg style with
    | Some (c :: r) => absolutizeUrl (Some (c :: r)) pageUrl
    | _ => []
    end.

(** Lines 124-126. *)
Definition bannerTitle (doc : list node) : jsstring :=
  let banner := first (select sel_banner doc) in
  or_else (Some (cleanText (text (first (find sel_h1 banner)))))
          (cleanText (text (first (find sel_h2 banner)))).

(** Lines 128-129. *)
Definition bannerDescription (doc : list node) : jsstring :=
  let banner := first (select sel_banner doc) in
  cleanText (text (first (find sel_p banner))).

(** Lines 131-135. *)
Definition bannerBtn (doc : list node) : selection :=
  let banner := first (select sel_banner doc) in
  first (filter (fun el => nonempty (cleanText (text [el])) = true)
                (find sel_a_button banner)).

(** Lines 144-156. *)
Definition videoEmbedUrl (doc : list node) (pageUrl : jsstring) : jsstring :=
  let video := first (select sel_video doc) in
  let iframeSrc := attr (js "src") (first (find sel_iframe video)) in
  let aHref := attr (js "href") (first (find sel_a video)) in
  let dataSrc := attr (js "data-src") (first (find sel_data_src video)) in
  absolutizeUrl
    (Some (or_else iframeSrc (or_else dataSrc (or_else aHref []))))
    pageUrl.

(** Lines 159-167. *)
Definition tileItems (doc : list node) : selection :=
  let tilesWrap := first (select sel_tiles_wrap doc) in
  let items := find sel_tile_items tilesWrap in
  match items with
  | [] => children tilesWrap
  | _ => items
  end.

(** Line 177: the first anchor of a candidate that has a text. *)
Definition tile_link (el : node) : selection :=
  first (filter (fun a => nonempty (cleanText (text [a])) = true) (find sel_a [el])).

(** Lines 172-179: the fields read from one candidate. *)
Definition tile_of (pageUrl : jsstring) (el : node) : tile :=
  let t := [el] in
  let heading := cleanText (text (first (find sel_h1234 t))) in
  let description := cleanText (text (first (find sel_p t))) in
  let link := tile_link el in
  let linkTitle := cleanText (text link) in
  let linkUrl := absolutizeUrl (Some (or_else (attr (js "href") link) [])) pageUrl in
  Tile heading description linkTitle linkUrl.

Definition tile_nonempty (t : tile) : bool :=
  nonempty (heading t) || nonempty (description t)
  || nonempty (linkTitle t) || nonempty (linkUrl t).

(** The callback of [$tileItems.each], lines 170-185, as a
    transformer of the array [tiles]. *)
Definition each_tile (pageUrl : jsstring) (tiles : list tile) (el : node) : list tile :=
  if (3 <=? length tiles)%nat then tiles
  else
    let t := tile_of pageUrl el in
    if tile_nonempty t then tiles ++ [t] else tiles.

(** The loop of lines 188-190, run for at most [fuel] rounds. *)
Fixpoint pad_tiles (fuel : nat) (tiles : list tile) : list tile :=
  match fuel with
  | O => tiles
  | S fuel' =>
      if (length tiles <? 3)%nat then pad_tiles fuel' (tiles ++ [empty_tile])
      else tiles
  end.

(** The array [tiles] when line 192 is reached. *)
Definition tiles_of (doc : list node) (pageUrl : jsstring) : list tile :=
  pad_tiles 3 (foldl (each_tile pageUrl) [] (tileItems doc)).

(** The candidates the [each] loop keeps: the first three that are
    not empty. *)
Definition kept_tiles (doc : list node) (pageUrl : jsstring) : list tile :=
  take 3 (filter (fun t => tile_nonempty t = true) (tile_of pageUrl <$> tileItems doc)).

(** [extractPageData], lines 104-221.  Reading a property of
    [tiles[i]] throws when the array is too short: [None]. *)
Definition extractPageData (html pageUrl : jsstring) : option PageRecord :=
  let doc := cheerio_load html in
  let btn := bannerBtn doc in
  let video := first (select sel_video doc) in
  let tiles := tiles_of doc pageUrl in
  t1 ← tiles !! 0%nat;
  t2 ← tiles !! 1%nat;
  t3 ← tiles !! 2%nat;
  Some {|
    url := pageUrl;
    banner_image := bannerImage doc pageUrl;
    banner_title := bannerTitle doc;
    banner_description := bannerDescription doc;
    banner_button_text := cleanText (text btn);
    banner_button_link :=
      absolutizeUrl (Some (or_else (attr (js "href") btn) [])) pageUrl;
    main_description := cleanText (text (first (select sel_main_description doc)));
    video_heading := cleanText (text (first (find sel_h123 video)));
    video_embed_url := videoEmbedUrl doc pageUrl;
    tile1_heading := heading t1;
    tile1_description := description t1;
    tile1_link_title := linkTitle t1;
    tile1_link_url := linkUrl t1;
    tile2_heading := heading t2;
    tile2_description := description t2;
    tile2_link_title := linkTitle t2;
    tile2_link_url := linkUrl t2;
    tile3_heading := heading t3;
    tile3_description := description t3;
    tile3_link_title := linkTitle t3;
    tile3_link_url := linkUrl t3 |}.

End Extract.

(** The three tile slots of a record. *)
Definition record_tiles (r : PageRecord) : list tile :=
  [Tile (tile1_heading r) (tile1_description r) (tile1_link_title r) (tile1_link_url r);
   Tile (tile2_heading r) (tile2_description r) (tile2_link_title r) (tile2_link_url r);
   Tile (tile3_heading r) (tile3_description r) (tile3_link_title r) (tile3_link_url r)].

(** ** Rows and the CSV writer *)

(** The objects pushed to [rows] and handed to the writer: the
    extracted record (line 287), [{ url, error }] (line 292) and
    [{ url }] (line 301). *)
Inductive row :=
| DataRow (data : PageRecord)
| ErrorRow (u : jsstring) (error : jsstring)
| UrlRow (u : jsstring).

(** [r.url]. *)
Definition row_url (r : row) : jsstring :=
  match r with
  | DataRow d => url d
  | ErrorRow u _ => u
  | UrlRow u => u
  end.

(** The own properties of a row object, in insertion order. *)
Definition row_entries (r : row) : list (string * jsstring) :=
  match r with
  | DataRow d =>
      [("url", url d);
       ("banner_image", banner_image d);
       ("banner_title", banner_title d);
       ("banner_description", banner_description d);
       ("banner_button_text", banner_button_text d);
       ("banner_button_link", banner_button_link d);
       ("main_description", main_description d);
       ("video_heading", video_heading d);
       ("video_embed_url", video_embed_url d);
       ("tile1_heading", tile1_heading d);
       ("tile1_description", tile1_description d);
       ("tile1_link_title", tile1_link_title d);
       ("tile1_link_url", tile1_link_url d);
       ("tile2_heading", tile2_heading d);
       ("tile2_description", tile2_description d);
       ("tile2_link_title", tile2_link_title d);
       ("tile2_link_url", tile2_link_url d);
       ("tile3_heading", tile3_heading d);
       ("tile3_description", tile3_description d);
       ("tile3_link_title", tile3_link_title d);
       ("tile3_link_url", tile3_link_url d)]
  | ErrorRow u e => [("url", u); ("error", e)]
  | UrlRow u => [("url", u)]
  end%string.

Fixpoint get_prop (id : string) (entries : list (string * jsstring)) : option jsstring :=
  match entries with
  | [] => None
  | (k, v) :: rest => if bool_decide (k = id) then Some v else get_prop id rest
  end.

(** [r[id]]. *)
Definition row_get (id : string) (r : row) : option jsstring :=
  get_prop id (row_entries r).

(** The ids of [headers], lines 243-271. *)
Definition headers : list string :=
  ["url";
   "banner_image"; "banner_title"; "banner_description";
   "banner_button_text"; "banner_button_link";
   "main_description";
   "video_heading"; "video_embed_url";
   "tile1_heading"; "tile1_description"; "tile1_link_title"; "tile1_link_url";
   "tile2_heading"; "tile2_description"; "tile2_link_title"; "tile2_link_url";
   "tile3_heading"; "tile3_description"; "tile3_link_title"; "tile3_link_url"]%string.

(** The content columns: every column but [url]. *)
Definition content_columns : list string := tail headers.


(** Modelled from the spec: the Row Writer ([createObjectCsvWriter] of
    the csv-writer package, which is not part of the sources).  It
    emits one line per record, with one cell per column of the fixed
    header, in header order; a record that lacks a column's property
    gets an empty cell.  Quoting is left to the writer. *)
Definition record_cells (r : row) : list jsstring :=
  (fun id => default [] (row_get id r)) <$> headers.

Definition csv_lines (records : list row) : list (list jsstring) :=
  (js <$> headers) :: (record_cells <$> records).

(** ** URL sources *)

(** [.map(e => e.loc?.[0]).filter(Boolean)]. *)
Definition first_locs (es : list sm_entry) : list jsstring :=
  filter (fun l => nonempty l = true) (omap (fun e => l ← loc e; head l) es).

Definition unknown_sitemap_format : jsstring :=
  js "Unknown sitemap format (expected urlset or sitemapindex).".

Definition no_source_given : jsstring :=
  js "Provide --sitemap <url> or --urls <file>.".

(** The loop of lines 82-87 over the child sitemaps still to visit;
    [resolve] is the recursive call and [all] the array filled so far.
    [None] stands for a call that never returns. *)
Fixpoint sub_sitemaps (resolve : jsstring -> option (result (list jsstring)))
    (sitemapLocs : list jsstring) (all : list jsstring)
  : option (result (list jsstring)) :=
  match sitemapLocs with
  | [] => Some (Ok all)
  | sm :: rest =>
      match resolve sm with
      | None => None
      | Some (Err e) => Some (Err e)
      | Some (Ok sub) => sub_sitemaps resolve rest (all ++ sub)
      end
  end.

(** Line 93-99: [raw.split(/\r?\n/)]. *)
Fixpoint split_lines (cur : jsstring) (raw : jsstring) : list jsstring :=
  match raw with
  | [] => [reverse cur]
  | c :: t =>
      if c =? 10 then reverse cur :: split_lines [] t
      else match t with
           | d :: t' =>
               if (c =? 13) && (d =? 10) then reverse cur :: split_lines [] t'
               else split_lines (c :: cur) t
           | [] => split_lines (c :: cur) t
           end
  end.

Definition starts_with_hash (l : jsstring) : bool :=
  match l with
  | c :: _ => c =? 35
  | [] => false
  end.

(** [Array.from(new Set(urls))]: a set keeps the insertion order of
    the first occurrence of each value; strings are the same value
    when their code units agree. *)
Fixpoint set_to_array (seen : gset jsstring) (urls : list jsstring) : list jsstring :=
  match urls with
  | [] => []
  | u :: rest =>
      if bool_decide (u ∈ seen) then set_to_array seen rest
      else u :: set_to_array ({[u]} ∪ seen) rest
  end.

(** Line 239. *)
Definition dedupe (urls : list jsstring) : list jsstring :=
  filter (fun u => nonempty u = true) (set_to_array ∅ urls).

(** [new Map(rows.map(r => [r.url, r]))]: a later pair replaces an
    earlier one with the same key. *)
Definition row_map (rows : list row) : gmap jsstring row :=
  foldl (fun m r => <[row_url r := r]> m) ∅ rows.

(** Lines 300-301. *)
Definition orderedRows (urls : list jsstring) (rows : list row) : list row :=
  let rowByUrl := row_map rows in
  (fun u => default (UrlRow u) (rowByUrl !! u)) <$> urls.

(** [process.argv.indexOf(name)]; [None] stands for -1. *)
Fixpoint indexOf (name : jsstring) (argv : list jsstring) : option nat :=
  match argv with
  | [] => None
  | a :: rest =>
      if bool_decide (a = name) then Some 0%nat else S <$> indexOf name rest
  end.

(** [getArg], lines 21-25; [None] is [null]. *)
Definition getArg (name : jsstring) (argv : list jsstring) : option jsstring :=
  match indexOf name argv with
  | None => None
  | Some idx =>
      match argv !! (idx + 1)%nat with
      | Some (c :: v) => Some (c :: v)
      | _ => None
      end
  end.

(** Lines joined by line feeds, the inverse of [split_lines]. *)
Fixpoint join_lines (lines : list jsstring) : jsstring :=
  match lines with
  | [] => []
  | [l] => l
  | l :: rest => l ++ 10 :: join_lines rest
  end.

(** The command line: [--sitemap], [--urls], [--concurrency]. *)
Record config := {
  SITEMAP_URL : option jsstring;
  URLS_FILE : option jsstring;
  CONCURRENCY : nat }.

(** How [main] ends: [process.exit(1)] after logging [message], with
    nothing written, or [writeRecords(records)]. *)
Inductive outcome :=
| Exit1 (message : jsstring)
| Wrote (records : list row).

Definition tile_read_error : jsstring :=
  js "Cannot read properties of undefined (reading 'heading')".

Definition plimit_error : jsstring :=
  js "Expected `concurrency` to be a number from 1 and up".

(** What the specification calls a sitemap: a page list with its
    locations, or a sitemap of sitemaps with its children, in document
    order. *)
Inductive sitemap_tree :=
| PageList (locs : list jsstring)
| SitemapIndex (children : list sitemap_tree).

(** The concatenation of the page lists, children in order. *)
Fixpoint flatten (t : sitemap_tree) : list jsstring :=
  match t with
  | PageList locs => locs
  | SitemapIndex cs => concat (map flatten cs)
  end.

(** The nesting of a sitemap, a page list counting one. *)
Fixpoint height (t : sitemap_tree) : nat :=
  match t with
  | PageList _ => 1
  | SitemapIndex cs => S (foldr Nat.max 0 (map height cs))
  end%nat.

Section Pipeline.

Context `{Env}.

(** The document found at [u] and at the locations it lists is the
    sitemap [t]. *)
Inductive serves : jsstring -> sitemap_tree -> Prop :=
| serves_page_list u parsed es :
    fetchSitemapXml u = Ok parsed ->
    urlset_url parsed = Some es ->
    serves u (PageList (first_locs es))
| serves_index u parsed es cs :
    fetchSitemapXml u = Ok parsed ->
    urlset_url parsed = None ->
    sitemapindex_sitemap parsed = Some es ->
    Forall2 serves (first_locs es) cs ->
    serves u (SitemapIndex cs).

(** [getUrlsFromSitemap], lines 66-91.  [fuel] bounds the nesting
    of the recursion; [None] when it does not suffice. *)
Fixpoint getUrlsFromSitemap (fuel : nat) (sitemapUrl : jsstring)
  : option (result (list jsstring)) :=
  match fuel with
  | O => None
  | S fuel' =>
      match fetchSitemapXml sitemapUrl with
      | Err e => Some (Err e)
      | Ok parsed =>
          match urlset_url parsed with
          | Some us => Some (Ok (first_locs us))
          | None =>
              match sitemapindex_sitemap parsed with
              | Some ss => sub_sitemaps (getUrlsFromSitemap fuel') (first_locs ss) []
              | None => Some (Err unknown_sitemap_format)
              end
          end
      end
  end.

(** [getUrlsFromFile], lines 93-99. *)
Definition getUrlsFromFile (path : jsstring) : result (list jsstring) :=
  match readFileSync path with
  | Err e => Err e
  | Ok raw =>
      Ok (filter (fun l => nonempty l && negb (starts_with_hash l) = true)
                 (trim <$> split_lines [] raw))
  end.

(** Lines 228-236. *)
Definition source_urls (fuel : nat) (cfg : config) : option (result (list jsstring)) :=
  if truthy (SITEMAP_URL cfg) then getUrlsFromSitemap fuel (or_else (SITEMAP_URL cfg) [])
  else if truthy (URLS_FILE cfg) then Some (getUrlsFromFile (or_else (URLS_FILE cfg) []))
  else Some (Err no_source_given).

(** One task, lines 283-294: the row it pushes when it settles. *)
Definition task (u : jsstring) : row :=
  match fetchHtml u with
  | Ok html =>
      match extractPageData html u with
      | Some data => DataRow data
      | None => ErrorRow u tile_read_error
      end
  | Err message => ErrorRow u message
  end.

(** [main], lines 226-309.  [order] lists the URLs in the order in
    which their tasks settle. *)
Definition main (fuel : nat) (cfg : config) (order : list jsstring) : option outcome :=
  match source_urls fuel cfg with
  | None => None
  | Some (Err e) => Some (Exit1 e)
  | Some (Ok found) =>
      let urls := dedupe found in
      if (CONCURRENCY cfg <? 1)%nat then Some (Exit1 plimit_error)
      else
        let rows := task <$> order in
        Some (Wrote (orderedRows urls rows))
  end.

(** The limiter of lines 279-297: the URLs not yet started, the
    tasks in flight, and the array [rows]. *)
Record pool := Pool {
  queued : list jsstring;
  running : list jsstring;
  pushed : list row }.

Inductive pool_step (limit : nat) : pool -> pool -> Prop :=
| pool_start u q run rs :
    (length run < limit)%nat ->
    pool_step limit (Pool (u :: q) run rs) (Pool q (run ++ [u]) rs)
| pool_settle u run1 run2 q rs :
    pool_step limit (Pool q (run1 ++ u :: run2) rs)
                    (Pool q (run1 ++ run2) (rs ++ [task u])).

(** [await Promise.all(tasks)] returns with [rows = rs]. *)
Definition pool_run (limit : nat) (urls : list jsstring) (rs : list row) : Prop :=
  rtc (pool_step limit) (Pool urls [] []) (Pool [] [] rs).

End Pipeline.

(** The environment [E] with other answers to the page fetches. *)
Definition with_fetch (E : Env) (pages : jsstring -> result jsstring) : Env :=
  {| URL_toString := @URL_toString E;
     cheerio_load := @cheerio_load E;
     fetchHtml := pages;
     fetchSitemapXml := @fetchSitemapXml E;
     readFileSync := @readFileSync E |}.

(** ** An environment for the examples *)

(** The host part: the units before the first slash. *)
Fixpoint up_to_slash (s : jsstring) : jsstring :=
  match s with
  | [] => []
  | c :: t => if c =? 47 then [] else c :: up_to_slash t
  end.

(** A resolver for the examples.  It knows two kinds of reference:
    an absolute http(s) URL, which stands for itself, and a path that
    starts with a slash, which replaces the path of an http(s) base.
    On anything else it throws. *)
Definition example_URL (rel base : jsstring) : option jsstring :=
  if starts_with (js "http://") rel || starts_with (js "https://") rel then Some rel
  else match rel with
       | c :: _ =>
           if negb (c =? 47) then None
           else if starts_with (js "https://") base
                then Some (js "https://" ++ up_to_slash (drop 8 base) ++ rel)
           else if starts_with (js "http://") base
                then Some (js "http://" ++ up_to_slash (drop 7 base) ++ rel)
           else None
       | [] => None
       end.

(** An environment given by its pages, sitemaps and files; the body of
    a page is handed to the parser [load]. *)
Definition example_env (load : jsstring -> list node)
    (pages : jsstring -> result jsstring)
    (sitemaps : jsstring -> result sitemap_xml)
    (files : jsstring -> result jsstring) : Env :=
  {| URL_toString := example_URL;
     cheerio_load := load;
     fetchHtml := pages;
     fetchSitemapXml := sitemaps;
     readFileSync := files |}.

Definition no_pages : jsstring -> result jsstring := fun _ => Err (js "ENOTFOUND").
Definition no_sitemaps : jsstring -> result sitemap_xml := fun _ => Err (js "ENOTFOUND").
Definition no_files : jsstring -> result jsstring := fun _ => Err (js "ENOENT").

(** An environment whose every page parses to [doc]. *)
Definition page_env (doc : list node) : Env :=
  example_env (fun _ => doc) no_pages no_sitemaps no_files.

Definition div_class (c : string) (more : list (jsstring * jsstring)) (kids : list node) : node :=
  Elem (js "div") ((js "class", js c) :: more) kids.


(** [<div class="banner"><img src="/x.png"></div>] *)
Definition img_banner_doc : list node :=
  [div_class "banner" [] [Elem (js "img") [(js "src", js "/x.png")] []]].

(** A video wrapper that holds, in this order, an anchor, an element
    with a [data-src] and an [iframe]. *)
Definition video_doc : list node :=
  [div_class "article-video" []
     [Elem (js "a") [(js "href", js "/watch")] [Text (js "Watch")];
      Elem (js "div") [(js "data-src", js "/lazy.mp4")] [];
      Elem (js "iframe") [(js "src", js "https://player.example/embed/1")] []]].

(** The same wrapper without the [iframe]. *)
Definition video_doc_no_iframe : list node :=
  [div_class "article-video" []
     [Elem (js "a") [(js "href", js "/watch")] [Text (js "Watch")];
      Elem (js "div") [(js "data-src", js "/lazy.mp4")] []]].

(** An element [<url><loc>l</loc></url>]. *)
Definition entry (l : string) : sm_entry := {| loc := Some [js l] |}.

(** A small site: two page lists under one sitemap of sitemaps, a
    document that is no sitemap, an index that lists it, a URL file
    that names one page twice, and a page whose fetch times out. *)

Definition site_a : jsstring := js "https://site.com/a".
Definition site_b : jsstring := js "https://site.com/b".
Definition site_c : jsstring := js "https://site.com/c".
Definition timeout_reason : jsstring := js "timeout of 20000ms exceeded".

Definition site_sitemaps (u : jsstring) : result sitemap_xml :=
  if bool_decide (u = js "https://site.com/sitemap.xml") then
    Ok {| urlset_url := None;
          sitemapindex_sitemap :=
            Some [entry "https://site.com/s1.xml"; entry "https://site.com/s2.xml"] |}
  else if bool_decide (u = js "https://site.com/s1.xml") then
    Ok {| urlset_url := Some [entry "https://site.com/a"; entry "https://site.com/b"];
          sitemapindex_sitemap := None |}
  else if bool_decide (u = js "https://site.com/s2.xml") then
    Ok {| urlset_url := Some [entry "https://site.com/c"; entry "https://site.com/a"];
          sitemapindex_sitemap := None |}
  else if bool_decide (u = js "https://site.com/feed.xml") then
    Ok {| urlset_url := None; sitemapindex_sitemap := None |}
  else if bool_decide (u = js "https://site.com/mixed.xml") then
    Ok {| urlset_url := None;
          sitemapindex_sitemap :=
            Some [entry "https://site.com/s1.xml"; entry "https://site.com/feed.xml";
                  entry "https://site.com/s2.xml"] |}
  else Err (js "Request failed with status code 404").

Definition site_files (path : jsstring) : result jsstring :=
  if bool_decide (path = js "urls.txt") then
    Ok (js "https://site.com/a" ++ [10] ++ js "https://site.com/a" ++ [13; 10]
        ++ js "# a comment" ++ [10] ++ js "https://site.com/b" ++ [10])
  else if bool_decide (path = js "variants.txt") then
    Ok (js "https://a.com/p" ++ [10] ++ js "https://a.com/p/" ++ [10])
  else Err (js "ENOENT: no such file or directory").

Definition site_pages (u : jsstring) : result jsstring :=
  if bool_decide (u = site_b) then Err timeout_reason
  else Ok (js "<html><body></body></html>").

Definition site_env : Env :=
  example_env (fun _ => []) site_pages site_sitemaps site_files.

Definition from_file (path : string) : config :=
  {| SITEMAP_URL := None; URLS_FILE := Some (js path); CONCURRENCY := 5 |}.

Definition from_sitemap (u : string) : config :=
  {| SITEMAP_URL := Some (js u); URLS_FILE := None; CONCURRENCY := 5 |}.

(** The record of a page on which no selector matches. *)
Definition blank_page (u : jsstring) : PageRecord :=
  {| url := u;
     banner_image := []; banner_title := []; banner_description := [];
     banner_button_text := []; banner_button_link := [];
     main_description := [];
     video_heading := []; video_embed_url := [];
     tile1_heading := []; tile1_description := []; tile1_link_title := [];
     tile1_link_url := [];
     tile2_heading := []; tile2_description := []; tile2_link_title := [];
     tile2_link_url := [];
     tile3_heading := []; tile3_description := []; tile3_link_title := [];
     tile3_link_url := [] |}.

Definition el (tag : string) (attribs : list (jsstring * jsstring)) (kids : list node) : node :=
  Elem (js tag) attribs kids.

(** A tiles wrapper with five candidates, the second of them empty,
    and an anchor without text in the fourth. *)
Definition tiles_doc : list node :=
  [div_class "related-articles" []
     [el "li" [] [el "h3" [] [Text (js " One ")];
                  el "p" [] [Text (js "First"); Text [10; 32]; Text (js "tile")];
                  el "a" [(js "href", js "/one")] [Text (js "Read")]];
      el "li" [] [Comment (js "nothing here")];
      el "li" [] [el "h4" [] [Text (js "Two")]];
      el "li" [] [el "a" [(js "href", js "/skipped")] [];
                  el "a" [(js "href", js "/three")] [Text (js "Three")]];
      el "li" [] [el "h2" [] [Text (js "Four")]]]].

(** A banner whose first [h1] holds only whitespace, followed by an
    [h2] and a second [h1]. *)
Definition blank_h1_doc : list node :=
  [div_class "banner" []
     [el "h1" [] [Text [32; 160; 10]];
      el "h2" [] [Text (js "Second level")];
      el "h1" [] [Text (js "Late first level")]]].

(** A command line on which [--sitemap] is followed by [--out]. *)
Definition example_argv : list jsstring :=
  [js "node"; js "scrape.js"; js "--sitemap"; js "--out"; js "x.csv"; js "--sitemap";
   js "https://site.com/sitemap.xml"].

(** * Properties *)

(** ** Whitespace normalisation: lemmas *)

Lemma replace_ws_runs_no_nbsp b s : Forall (fun c => c ≠ NBSP) (replace_ws_runs b s).
Proof.
  revert b; induction s as [|c t IH]; intros b; simpl; [constructor|].
  destruct (is_js_space c) eqn:E.
  - destruct b; [apply IH|]. constructor; [discriminate | apply IH].
  - constructor; [|apply IH]. intros ->. discriminate E.
Qed.

Lemma replace_nbsp_id s : Forall (fun c => c ≠ NBSP) s -> replace_nbsp s = s.
Proof.
  induction 1 as [|c t Hc _ IH]; [done|].
  unfold replace_nbsp in *. rewrite fmap_cons, IH.
  destruct (N.eqb_spec c NBSP); congruence.
Qed.

Lemma trimEnd_app a b :
  trimEnd (a ++ b) = match trimEnd b with [] => trimEnd a | r => a ++ r end.
Proof.
  induction a as [|c a IH]; simpl.
  - by destruct (trimEnd b).
  - rewrite IH. destruct (trimEnd b) eqn:Eb; [done|].
    by destruct a.
Qed.

Lemma trimEnd_word w :
  w ≠ [] -> Forall (fun c => is_js_space c = false) w -> trimEnd w = w.
Proof.
  induction w as [|c w IH]; [done|]. intros _ Hw.
  apply Forall_cons in Hw as [Hc Hw]. simpl.
  destruct w as [|d w]; [by rewrite Hc|].
  rewrite IH by done. done.
Qed.

(** [trimEnd] is [trimStart] read from the other end. *)
Lemma trimEnd_reverse s : trimEnd s = reverse (trimStart (reverse s)).
Proof.
  induction s as [|c s IH] using rev_ind; [done|].
  rewrite trimEnd_app, reverse_snoc. simpl.
  destruct (is_js_space c); [done|].
  by rewrite reverse_cons, reverse_involutive.
Qed.

Lemma reverse_cons_ne {A} (d : A) cur : reverse (d :: cur) ≠ [].
Proof. rewrite reverse_cons. by destruct (reverse cur). Qed.

Lemma words_from_nonempty cur s : Forall (fun w => w ≠ []) (words_from cur s).
Proof.
  revert cur; induction s as [|c t IH]; intros cur; simpl.
  - destruct cur as [|d cur]; constructor; [|constructor].
    apply reverse_cons_ne.
  - destruct (is_js_space c); [|apply IH].
    destruct cur as [|d cur]; [apply IH|]. constructor; [|apply IH].
    apply reverse_cons_ne.
Qed.

Lemma join_sp_nil_inv ws : Forall (fun w => w ≠ []) ws -> join_sp ws = [] -> ws = [].
Proof.
  destruct 1 as [|w ws Hw _]; [done|]. simpl.
  destruct ws; [done|]. by destruct w.
Qed.

Lemma join_sp_cons w ws :
  join_sp (w :: ws) = match join_sp ws with [] => match ws with [] => w | _ => w ++ SP :: join_sp ws end | r => w ++ SP :: r end.
Proof. simpl. destruct ws; [done|]. by destruct (join_sp (l :: ws)). Qed.

Lemma collapse_words s :
  (forall cur, cur ≠ [] -> Forall (fun c => is_js_space c = false) cur ->
      trimEnd (reverse cur ++ replace_ws_runs false s) = join_sp (words_from cur s))
  /\ trimEnd (replace_ws_runs true s) = join_sp (words_from [] s).
Proof.
  induction s as [|c t [IHP IHQ]]; simpl.
  - split; [|done]. intros cur Hne Hcur. rewrite app_nil_r.
    destruct cur as [|d cur]; [done|].
    apply trimEnd_word.
    + apply reverse_cons_ne.
    + by apply Forall_reverse.
  - destruct (is_js_space c) eqn:E.
    + split; [|done]. intros cur Hne Hcur.
      destruct cur as [|d cur]; [done|].
      rewrite trimEnd_app. simpl trimEnd at 1. rewrite IHQ.
      pose proof (words_from_nonempty [] t) as Hw.
      destruct (join_sp (words_from [] t)) as [|x r] eqn:Ej.
      * apply join_sp_nil_inv in Ej; [|done]. rewrite Ej. simpl.
        change (is_js_space SP) with true. simpl.
        apply trimEnd_word.
        -- apply reverse_cons_ne.
        -- by apply Forall_reverse.
      * rewrite join_sp_cons, Ej. done.
    + split.
      * intros cur Hne Hcur.
        replace (reverse cur ++ c :: replace_ws_runs false t)
          with (reverse (c :: cur) ++ replace_ws_runs false t)
          by (rewrite reverse_cons, <- app_assoc; done).
        apply IHP; [done|]. by constructor.
      * apply (IHP [c]); [done|]. by constructor.
Qed.

Lemma trimStart_collapse s :
  trimStart (replace_ws_runs true s) = replace_ws_runs false (trimStart s).
Proof.
  induction s as [|c t IH]; [done|]. simpl.
  destruct (is_js_space c) eqn:E; [done|].
  simpl. by rewrite E.
Qed.

Lemma words_trimStart s : words_from [] (trimStart s) = words_from [] s.
Proof.
  induction s as [|c t IH]; [done|]. simpl.
  destruct (is_js_space c) eqn:E; [done|].
  simpl. by rewrite E.
Qed.

Lemma trim_collapse s :
  trim (replace_ws_runs false s) = join_sp (words s).
Proof.
  unfold trim, words.
  assert (trimStart (replace_ws_runs false s) = replace_ws_runs false (trimStart s)) as ->.
  { destruct s as [|c t]; [done|]. simpl.
    destruct (is_js_space c) eqn:E.
    - simpl. change (is_js_space SP) with true. simpl. apply trimStart_collapse.
    - simpl. by rewrite E. }
  rewrite <- words_trimStart.
  destruct (trimStart s) as [|c t] eqn:Et; [done|].
  assert (is_js_space c = false) as E.
  { clear -Et. induction s as [|d s IH]; [done|]. simpl in Et.
    destruct (is_js_space d) eqn:Ed; [by apply IH|]. congruence. }
  simpl. rewrite E.
  apply (proj1 (collapse_words t) [c]); [done|]. by constructor.
Qed.

Lemma cleanText_words s : cleanText s = normalize_spec s.
Proof.
  unfold cleanText, normalize_spec. destruct s as [|c t]; [done|].
  rewrite replace_nbsp_id by apply replace_ws_runs_no_nbsp.
  apply trim_collapse.
Qed.

(** What [words] computes: whitespace before a word is dropped, a
    word ends at the first whitespace unit after it, and a string
    free of whitespace is one word. *)
Lemma words_skip_space c s : is_js_space c = true -> words (c :: s) = words s.
Proof. unfold words. simpl. by intros ->. Qed.

Lemma words_from_word w : forall cur,
  Forall (fun x => is_js_space x = false) w -> cur ++ w ≠ [] ->
  (forall c s, is_js_space c = true ->
     words_from cur (w ++ c :: s) = (reverse cur ++ w) :: words_from [] s)
  /\ words_from cur w = [reverse cur ++ w].
Proof.
  induction w as [|x w IH]; intros cur Hw Hne.
  - rewrite app_nil_r in *. destruct cur as [|d cur]; [done|].
    split; [|done]. intros c s Hc. simpl. by rewrite Hc.
  - apply Forall_cons in Hw as [Hx Hw].
    destruct (IH (x :: cur) Hw) as [IH1 IH2]; [done|].
    split.
    + intros c s Hc. simpl. rewrite Hx, IH1 by done.
      by rewrite reverse_cons, <- app_assoc.
    + simpl. rewrite Hx, IH2. by rewrite reverse_cons, <- app_assoc.
Qed.

Lemma words_word_then_space w c s :
  w ≠ [] -> Forall (fun x => is_js_space x = false) w -> is_js_space c = true ->
  words (w ++ c :: s) = w :: words s.
Proof.
  intros Hne Hw Hc. unfold words.
  by rewrite (proj1 (words_from_word w [] Hw Hne) c s Hc).
Qed.

Lemma words_single w :
  w ≠ [] -> Forall (fun x => is_js_space x = false) w -> words w = [w].
Proof. intros Hne Hw. apply (proj2 (words_from_word w [] Hw Hne)). Qed.

Lemma words_from_no_space cur s :
  Forall (fun x => is_js_space x = false) cur ->
  Forall (Forall (fun x => is_js_space x = false)) (words_from cur s).
Proof.
  revert cur. induction s as [|c t IH]; intros cur Hcur; simpl.
  - destruct cur; [constructor|]. constructor; [|constructor]. by apply Forall_reverse.
  - destruct (is_js_space c) eqn:E.
    + destruct cur; [by apply IH|]. constructor; [by apply Forall_reverse | by apply IH].
    + apply IH. by constructor.
Qed.

(** C5: [cleanText] turns every text into its words joined by single
    ASCII spaces: each run of whitespace between two words (the
    no-break space U+00A0 is whitespace) becomes one space, and
    whitespace before the first and after the last word disappears.
    The words are the maximal runs of units that are not whitespace.
    In particular
    "Hello\n\n  World\u00A0!" becomes "Hello World !". *)
Theorem cleanText_collapses_and_trims :
  (forall s, cleanText s = join_sp (words s))
  /\ (forall s, Forall (fun w => w ≠ [] /\ Forall (fun c => is_js_space c = false) w) (words s))
  /\ words [] = []
  /\ (forall c s, is_js_space c = true -> words (c :: s) = words s)
  /\ (forall w c s,
        w ≠ [] -> Forall (fun x => is_js_space x = false) w -> is_js_space c = true ->
        words (w ++ c :: s) = w :: words s)
  /\ (forall w, w ≠ [] -> Forall (fun x => is_js_space x = false) w -> words w = [w])
  /\ is_js_space NBSP = true
  /\ cleanText (js "Hello" ++ [10; 10; 32; 32] ++ js "World" ++ [NBSP] ++ js "!")
     = js "Hello World !".
Proof.
  split; [exact cleanText_words|]. split.
  { intros s. apply Forall_and. split.
    - apply words_from_nonempty.
    - apply words_from_no_space. constructor. }
  split; [reflexivity|].
  split; [exact words_skip_space|].
  split; [exact words_word_then_space|].
  split; [exact words_single|].
  split; reflexivity.
Qed.

(** ** The style regular expression *)











(** ** Extraction *)

Section ExtractProps.

Context `{Env}.

Lemma each_tile_length pageUrl tiles el :
  (length tiles <= 3)%nat -> (length (each_tile pageUrl tiles el) <= 3)%nat.
Proof.
  intros Hl. unfold each_tile.
  destruct (Nat.leb_spec 3 (length tiles)); [done|].
  destruct (tile_nonempty _); [|done].
  rewrite length_app. simpl. lia.
Qed.

(** The [each] loop keeps the first three non-empty candidates. *)
Lemma each_tile_foldl pageUrl items : forall tiles,
  (length tiles <= 3)%nat ->
  foldl (each_tile pageUrl) tiles items =
    take 3 (tiles ++ filter (fun t => tile_nonempty t = true) (tile_of pageUrl <$> items)).
Proof.
  induction items as [|el items IH]; intros tiles Hl; simpl.
  - rewrite filter_nil, app_nil_r. by rewrite take_ge.
  - rewrite IH by by apply each_tile_length.
    unfold each_tile. destruct (Nat.leb_spec 3 (length tiles)) as [Hge|Hlt].
    + assert (length tiles = 3%nat) as Hlen by lia.
      rewrite !take_app_ge by lia. by rewrite Hlen, Nat.sub_diag.
    + destruct (tile_nonempty (tile_of pageUrl el)) eqn:E.
      * rewrite filter_cons_True by done. by rewrite <- app_assoc.
      * rewrite filter_cons_False by (by rewrite E). done.
Qed.

Lemma pad_tiles_spec tiles :
  (length tiles <= 3)%nat ->
  pad_tiles 3 tiles = tiles ++ replicate (3 - length tiles) empty_tile.
Proof.
  intros Hl.
  destruct tiles as [|a [|b [|c [|d tiles]]]]; simpl in *; try done; lia.
Qed.

Lemma tiles_of_spec doc pageUrl :
  tiles_of doc pageUrl =
    kept_tiles doc pageUrl ++ replicate (3 - length (kept_tiles doc pageUrl)) empty_tile.
Proof.
  unfold tiles_of, kept_tiles.
  rewrite each_tile_foldl by (simpl; lia). simpl.
  apply pad_tiles_spec. rewrite length_take. lia.
Qed.

Lemma tiles_of_length doc pageUrl : length (tiles_of doc pageUrl) = 3%nat.
Proof.
  rewrite tiles_of_spec, length_app, length_replicate.
  assert (length (kept_tiles doc pageUrl) <= 3)%nat; [|lia].
  unfold kept_tiles. rewrite length_take. lia.
Qed.

(** [extractPageData] returns, and its record is made of the local
    values of lines 108-190. *)
Lemma extractPageData_returns html pageUrl :
  exists r t1 t2 t3,
    extractPageData html pageUrl = Some r
    /\ tiles_of (cheerio_load html) pageUrl = [t1; t2; t3]
    /\ record_tiles r = [t1; t2; t3]
    /\ url r = pageUrl
    /\ banner_image r = bannerImage (cheerio_load html) pageUrl
    /\ banner_title r = bannerTitle (cheerio_load html)
    /\ banner_description r = bannerDescription (cheerio_load html)
    /\ banner_button_text r = cleanText (text (bannerBtn (cheerio_load html)))
    /\ banner_button_link r =
         absolutizeUrl (Some (or_else (attr (js "href") (bannerBtn (cheerio_load html))) []))
                       pageUrl
    /\ main_description r =
         cleanText (text (first (select sel_main_description (cheerio_load html))))
    /\ video_heading r =
         cleanText (text (first (find sel_h123 (first (select sel_video (cheerio_load html))))))
    /\ video_embed_url r = videoEmbedUrl (cheerio_load html) pageUrl.
Proof.
  pose proof (tiles_of_length (cheerio_load html) pageUrl) as Hl.
  unfold extractPageData.
  destruct (tiles_of (cheerio_load html) pageUrl) as [|t1 [|t2 [|t3 [|t4 l]]]];
    try discriminate Hl.
  simpl. eexists _, t1, t2, t3. split; [reflexivity|].
  repeat split; by destruct t1, t2, t3.
Qed.

Lemma extractPageData_inv html pageUrl r :
  extractPageData html pageUrl = Some r ->
  exists t1 t2 t3,
    tiles_of (cheerio_load html) pageUrl = [t1; t2; t3]
    /\ record_tiles r = [t1; t2; t3]
    /\ url r = pageUrl
    /\ banner_image r = bannerImage (cheerio_load html) pageUrl
    /\ banner_title r = bannerTitle (cheerio_load html)
    /\ banner_description r = bannerDescription (cheerio_load html)
    /\ banner_button_text r = cleanText (text (bannerBtn (cheerio_load html)))
    /\ banner_button_link r =
         absolutizeUrl (Some (or_else (attr (js "href") (bannerBtn (cheerio_load html))) []))
                       pageUrl
    /\ main_description r =
         cleanText (text (first (select sel_main_description (cheerio_load html))))
    /\ video_heading r =
         cleanText (text (first (find sel_h123 (first (select sel_video (cheerio_load html))))))
    /\ video_embed_url r = videoEmbedUrl (cheerio_load html) pageUrl.
Proof.
  intros Hr. destruct (extractPageData_returns html pageUrl) as (r' & t1 & t2 & t3 & Hr' & G).
  rewrite Hr in Hr'. injection Hr' as <-. by exists t1, t2, t3.
Qed.



Lemma absolutizeUrl_or_else x pageUrl :
  absolutizeUrl (Some (or_else x [])) pageUrl = absolutizeUrl x pageUrl.
Proof. by destruct x as [[|c v]|]. Qed.

Lemma absolutizeUrl_resolved v u pageUrl :
  v ≠ [] -> URL_toString v pageUrl = Some u -> absolutizeUrl (Some v) pageUrl = u.
Proof. intros Hv Hu. destruct v; [done|]. simpl. by rewrite Hu. Qed.

Lemma absolutizeUrl_unresolved v pageUrl :
  URL_toString v pageUrl = None -> absolutizeUrl (Some v) pageUrl = v.
Proof. intros Hu. destruct v; [done|]. simpl. by rewrite Hu. Qed.

Lemma kept_tiles_candidates doc pageUrl :
  Forall (fun t => exists el, el ∈ tileItems doc /\ t = tile_of pageUrl el)
         (kept_tiles doc pageUrl).
Proof.
  apply Forall_forall. intros t Ht. unfold kept_tiles in Ht.
  apply elem_of_take in Ht as (i & Ht & _).
  apply list_elem_of_lookup_2 in Ht.
  apply list_elem_of_filter in Ht as [_ Ht].
  apply list_elem_of_fmap in Ht as (el & -> & Hel). by exists el.
Qed.

Lemma tiles_of_candidates doc pageUrl :
  Forall (fun t => t = empty_tile \/ exists el, el ∈ tileItems doc /\ t = tile_of pageUrl el)
         (tiles_of doc pageUrl).
Proof.
  rewrite tiles_of_spec. apply Forall_app. split.
  - eapply Forall_impl; [apply kept_tiles_candidates|].
    intros t (el & Hel & Ht). right. by exists el.
  - apply Forall_replicate. by left.
Qed.

(** C6: every link target goes through [absolutizeUrl], which gives
    the URL the platform resolves the value to against the page URL,
    the value itself when the platform refuses it, and the empty
    string for an empty or a missing value.  This holds for the
    banner image, the banner button, the video embed and the tile
    links.  With the page [https://a.com/p], the value [/x.png]
    becomes [https://a.com/x.png] wherever the platform resolves it
    so. *)
Theorem link_targets_absolutized html pageUrl :
  exists r,
    extractPageData html pageUrl = Some r
    /\ (forall v u, v ≠ [] -> URL_toString v pageUrl = Some u ->
          absolutizeUrl (Some v) pageUrl = u)
    /\ (forall v, URL_toString v pageUrl = None -> absolutizeUrl (Some v) pageUrl = v)
    /\ absolutizeUrl (Some []) pageUrl = []
    /\ absolutizeUrl None pageUrl = []
    /\ (let doc := cheerio_load html in
        let banner := first (select sel_banner doc) in
        let video := first (select sel_video doc) in
        (forall v, attr (js "src") (first (find sel_img banner)) = Some v -> v ≠ [] ->
           banner_image r = absolutizeUrl (Some v) pageUrl)
        /\ banner_button_link r = absolutizeUrl (attr (js "href") (bannerBtn doc)) pageUrl
        /\ (forall v, attr (js "src") (first (find sel_iframe video)) = Some v -> v ≠ [] ->
             video_embed_url r = absolutizeUrl (Some v) pageUrl)
        /\ Forall (fun t => t = empty_tile \/
                     exists el, el ∈ tileItems doc /\ t = tile_of pageUrl el
                       /\ linkUrl t = absolutizeUrl (attr (js "href") (tile_link el)) pageUrl)
                  (record_tiles r))
    /\ (pageUrl = js "https://a.com/p" ->
        URL_toString (js "/x.png") pageUrl = Some (js "https://a.com/x.png") ->
        attr (js "src") (first (find sel_img (first (select sel_banner (cheerio_load html)))))
          = Some (js "/x.png") ->
        banner_image r = js "https://a.com/x.png").
Proof.
  destruct (extractPageData_returns html pageUrl)
    as (r & t1 & t2 & t3 & Hr & Ht & Hrt & _ & Himg & _ & _ & _ & Hbtn & _ & _ & Hvid).
  assert (forall v, attr (js "src") (first (find sel_img (first (select sel_banner (cheerio_load html)))))
                    = Some v -> v ≠ [] -> banner_image r = absolutizeUrl (Some v) pageUrl) as Gimg.
  { intros v Hv Hne. rewrite Himg. unfold bannerImage. rewrite Hv. by destruct v. }
  exists r. split; [done|].
  split; [intros v u; apply absolutizeUrl_resolved|].
  split; [intros v; apply absolutizeUrl_unresolved|].
  split; [done|]. split; [done|]. split; [cbv zeta; split; [|split; [|split]]|].
  - done.
  - by rewrite Hbtn, absolutizeUrl_or_else.
  - intros v Hv Hne. rewrite Hvid. unfold videoEmbedUrl. rewrite Hv. by destruct v.
  - rewrite Hrt, <- Ht. eapply Forall_impl; [apply tiles_of_candidates|].
    intros t [->|(el & Hel & ->)]; [by left|right].
    exists el. split; [done|]. split; [done|].
    unfold tile_of. simpl. apply absolutizeUrl_or_else.
  - intros -> Hu Hv. rewrite (Gimg _ Hv) by done.
    by apply absolutizeUrl_resolved.
Qed.


(** C8: the video embed URL is the [src] of the first [iframe]
    inside the video wrapper when it has one; else the [data-src] of
    the first element inside the wrapper that carries one; else the
    [href] of the first anchor inside the wrapper; else the empty
    string.  The value chosen is made absolute against the page
    URL. *)
Theorem video_embed_precedence html pageUrl :
  exists r,
    extractPageData html pageUrl = Some r
    /\ (let video := first (select sel_video (cheerio_load html)) in
        let iframeSrc := attr (js "src") (first (find sel_iframe video)) in
        let dataSrc := attr (js "data-src") (first (find sel_data_src video)) in
        let aHref := attr (js "href") (first (find sel_a video)) in
        (truthy iframeSrc = true -> video_embed_url r = absolutizeUrl iframeSrc pageUrl)
        /\ (truthy iframeSrc = false -> truthy dataSrc = true ->
            video_embed_url r = absolutizeUrl dataSrc pageUrl)
        /\ (truthy iframeSrc = false -> truthy dataSrc = false -> truthy aHref = true ->
            video_embed_url r = absolutizeUrl aHref pageUrl)
        /\ (truthy iframeSrc = false -> truthy dataSrc = false -> truthy aHref = false ->
            video_embed_url r = [])).
Proof.
  destruct (extractPageData_returns html pageUrl)
    as (r & t1 & t2 & t3 & Hr & _ & _ & _ & _ & _ & _ & _ & _ & _ & _ & Hvid).
  exists r. split; [done|]. cbv zeta. rewrite Hvid. unfold videoEmbedUrl.
  destruct (attr (js "src") _) as [[|c1 v1]|];
    destruct (attr (js "data-src") _) as [[|c2 v2]|];
    destruct (attr (js "href") _) as [[|c3 v3]|]; simpl; repeat split; done.
Qed.


End ExtractProps.

(** *** Instances *)


Lemma link_targets_absolutized_witness :
  exists r,
    @extractPageData (page_env img_banner_doc) [] (js "https://a.com/p") = Some r
    /\ banner_image r = js "https://a.com/x.png".
Proof.
  destruct (@link_targets_absolutized (page_env img_banner_doc) [] (js "https://a.com/p"))
    as (r & Hr & _ & _ & _ & _ & _ & Hex).
  exists r. split; [exact Hr|].
  apply Hex; reflexivity.
Defined.


Lemma video_embed_precedence_witness :
  (exists r,
      @extractPageData (page_env video_doc) [] (js "https://site.com/page") = Some r
      /\ video_embed_url r = js "https://player.example/embed/1")
  /\ (exists r,
      @extractPageData (page_env video_doc_no_iframe) [] (js "https://site.com/page") = Some r
      /\ video_embed_url r = js "https://site.com/lazy.mp4").
Proof.
  split.
  - destruct (@video_embed_precedence (page_env video_doc) [] (js "https://site.com/page"))
      as (r & Hr & H1 & _).
    exists r. split; [exact Hr|]. exact (H1 eq_refl).
  - destruct (@video_embed_precedence (page_env video_doc_no_iframe) []
                (js "https://site.com/page")) as (r & Hr & _ & H2 & _).
    exists r. split; [exact Hr|]. exact (H2 eq_refl eq_refl).
Defined.

(** ** Deduplication *)

Lemma elem_of_set_to_array seen l x :
  x ∈ set_to_array seen l <-> x ∈ l /\ x ∉ seen.
Proof.
  revert seen. induction l as [|a l IH]; intros seen; simpl.
  - set_solver.
  - case_bool_decide as Ha.
    + rewrite IH. set_solver.
    + rewrite !elem_of_cons, IH, not_elem_of_union, elem_of_singleton.
      split.
      * intros [->|(? & ? & ?)]; [split; [by left | done] | split; [by right | done]].
      * intros [Hx ?]. destruct (decide (x = a)) as [->|Hne]; [by left|right].
        by destruct Hx.
Qed.

Lemma NoDup_set_to_array seen l : NoDup (set_to_array seen l).
Proof.
  revert seen. induction l as [|a l IH]; intros seen; simpl.
  - constructor.
  - case_bool_decide as Ha; [apply IH|].
    constructor; [|apply IH]. rewrite elem_of_set_to_array.
    intros [_ Hn]. apply Hn. apply elem_of_union_l. by apply elem_of_singleton.
Qed.

(** Adding one more value at the end of the input adds it at the end
    of the array when it is new, and changes nothing otherwise. *)
Lemma set_to_array_snoc seen l x :
  set_to_array seen (l ++ [x]) =
    set_to_array seen l ++ (if bool_decide (x ∈ seen \/ x ∈ l) then [] else [x]).
Proof.
  revert seen. induction l as [|a l IH]; intros seen; simpl.
  - case_bool_decide as Hx.
    + rewrite bool_decide_eq_true_2 by by left. done.
    + rewrite bool_decide_eq_false_2; [done|]. set_solver.
  - case_bool_decide as Ha.
    + rewrite IH. f_equal. apply (f_equal (fun b : bool => if b then [] else [x])).
      apply bool_decide_ext. set_solver.
    + rewrite IH. simpl. f_equal. f_equal.
      apply (f_equal (fun b : bool => if b then [] else [x])).
      apply bool_decide_ext. set_solver.
Qed.

Lemma elem_of_dedupe l x : x ∈ dedupe l <-> x ∈ l /\ x ≠ [].
Proof.
  unfold dedupe. rewrite list_elem_of_filter, elem_of_set_to_array.
  destruct x; simpl; set_solver.
Qed.

Lemma NoDup_dedupe l : NoDup (dedupe l).
Proof. apply NoDup_filter, NoDup_set_to_array. Qed.

Lemma dedupe_snoc l x :
  dedupe (l ++ [x]) =
    if bool_decide (x ∈ l \/ x = []) then dedupe l else dedupe l ++ [x].
Proof.
  unfold dedupe. rewrite set_to_array_snoc, filter_app.
  destruct (decide (x ∈ l)) as [Hin|Hin].
  - rewrite !bool_decide_eq_true_2 by (by (left + right)). by rewrite filter_nil, app_nil_r.
  - rewrite (bool_decide_eq_false_2 (x ∈ ∅ \/ x ∈ l)) by set_solver.
    destruct x as [|c x].
    + rewrite bool_decide_eq_true_2 by by right.
      rewrite filter_cons_False by done. by rewrite filter_nil, app_nil_r.
    + rewrite bool_decide_eq_false_2 by (intros [?|?]; done).
      by rewrite filter_cons_True.
Qed.

(** The number of distinct non-empty values. *)
Lemma dedupe_length l :
  length (dedupe l) =
    size (list_to_set (filter (fun u => nonempty u = true) l) : gset jsstring).
Proof.
  rewrite <- (size_list_to_set (C:=gset jsstring) (dedupe l)) by apply NoDup_dedupe.
  f_equal. apply set_eq. intros x.
  rewrite !elem_of_list_to_set, elem_of_dedupe, list_elem_of_filter.
  destruct x; simpl; set_solver.
Qed.

(** ** Sitemaps *)

Section PipelineProps.

Context `{Env}.

Lemma sub_sitemaps_ok resolve cs : forall lists all,
  Forall2 (fun c l => resolve c = Some (Ok l)) cs lists ->
  sub_sitemaps resolve cs all = Some (Ok (all ++ concat lists)).
Proof.
  induction cs as [|c cs IH]; intros lists all Hf;
    inversion Hf as [|? l ? ls Hc Hcs]; subst; simpl.
  - by rewrite app_nil_r.
  - rewrite Hc, (IH ls) by done. by rewrite app_assoc.
Qed.

Lemma sub_sitemaps_err resolve pre c post e : forall lists all,
  Forall2 (fun c l => resolve c = Some (Ok l)) pre lists ->
  resolve c = Some (Err e) ->
  sub_sitemaps resolve (pre ++ c :: post) all = Some (Err e).
Proof.
  induction pre as [|p pre IH]; intros lists all Hf He;
    inversion Hf as [|? l ? ls Hc Hcs]; subst; simpl.
  - by rewrite He.
  - rewrite Hc. by eapply IH.
Qed.

Lemma sub_sitemaps_mono (r1 r2 : jsstring -> option (result (list jsstring))) cs :
  (forall c res, c ∈ cs -> r1 c = Some res -> r2 c = Some res) ->
  forall all res, sub_sitemaps r1 cs all = Some res -> sub_sitemaps r2 cs all = Some res.
Proof.
  induction cs as [|c cs IH]; intros Hr all res; simpl; [done|].
  destruct (r1 c) as [[l|e]|] eqn:E; [| |done].
  - rewrite (Hr c (Ok l)) by (done || by left). apply IH.
    intros c' res' Hc'. apply Hr. by right.
  - rewrite (Hr c (Err e)) by (done || by left). done.
Qed.

(** More fuel does not change a result already reached. *)
Lemma getUrlsFromSitemap_mono fuel : forall fuel' u res,
  (fuel <= fuel')%nat ->
  getUrlsFromSitemap fuel u = Some res -> getUrlsFromSitemap fuel' u = Some res.
Proof.
  induction fuel as [|fuel IH]; intros fuel' u res Hle; [done|].
  destruct fuel' as [|fuel']; [lia|]. simpl.
  destruct (fetchSitemapXml u) as [parsed|e]; [|done].
  destruct (urlset_url parsed); [done|].
  destruct (sitemapindex_sitemap parsed); [|done].
  apply sub_sitemaps_mono. intros c res' _. apply IH. lia.
Qed.

Lemma height_child c cs : c ∈ cs -> (height c <= foldr Nat.max 0 (map height cs))%nat.
Proof.
  induction 1 as [c cs|c d cs _ IH]; simpl; lia.
Qed.

(** A sitemap of finite nesting is resolved, with fuel for its
    nesting, to the concatenation of its page lists. *)
Lemma getUrlsFromSitemap_flatten fuel : forall u t,
  serves u t -> (height t <= fuel)%nat ->
  getUrlsFromSitemap fuel u = Some (Ok (flatten t)).
Proof.
  induction fuel as [|fuel IH]; intros u t Hs Hh.
  - destruct t; simpl in Hh; lia.
  - inversion Hs as [? parsed es Hf Hu|? parsed es cs Hf Hu Hi Hcs]; subst; simpl.
    + by rewrite Hf, Hu.
    + rewrite Hf, Hu, Hi.
      rewrite (sub_sitemaps_ok _ (first_locs es) (map flatten cs)); [done|].
      simpl in Hh. apply Forall2_fmap_r.
      assert (forall t, t ∈ cs -> height t <= fuel)%nat as Hcs'.
      { intros t Ht. pose proof (height_child t cs Ht). lia. }
      clear -IH Hcs Hcs'. induction Hcs as [|c t locs cs Hc _ IHcs]; constructor.
      * apply IH; [done|]. apply Hcs'. by left.
      * apply IHcs. intros t' Ht'. apply Hcs'. by right.
Qed.

(** ** Tasks, the limiter and the reordering *)

Lemma row_url_task u : row_url (task u) = u.
Proof.
  unfold task. destruct (fetchHtml u) as [html|e]; [|done].
  destruct (extractPageData html u) as [d|] eqn:E; [|done].
  destruct (extractPageData_inv _ _ _ E) as (t1 & t2 & t3 & _ & _ & Hu & _). done.
Qed.

Lemma row_map_lookup order u : forall m : gmap jsstring row,
  foldl (fun m r => <[row_url r := r]> m) m (task <$> order) !! u =
    if bool_decide (u ∈ order) then Some (task u) else m !! u.
Proof.
  induction order as [|a order IH]; intros m.
  - done.
  - rewrite fmap_cons. cbn [foldl]. rewrite IH, row_url_task. destruct (decide (u ∈ order)) as [Hin|Hin].
    + rewrite !bool_decide_eq_true_2; [done | by right | done].
    + rewrite (bool_decide_eq_false_2 (u ∈ order)) by done.
      destruct (decide (a = u)) as [->|Hne].
      * rewrite lookup_insert_eq, bool_decide_eq_true_2; [done | by left].
      * rewrite lookup_insert_ne by done.
        rewrite bool_decide_eq_false_2; [done|].
        intros [?|?]%elem_of_cons; congruence.
Qed.

(** Whatever the order in which the tasks settled, the reordering
    puts the row of each URL at the place of that URL. *)
Lemma orderedRows_settled urls order :
  (forall u, u ∈ urls -> u ∈ order) ->
  orderedRows urls (task <$> order) = task <$> urls.
Proof.
  intros Hsub. unfold orderedRows, row_map.
  induction urls as [|u urls IH]; [done|]. simpl.
  rewrite row_map_lookup, bool_decide_eq_true_2 by (apply Hsub; by left).
  simpl. f_equal. apply IH. intros u' Hu'. apply Hsub. by right.
Qed.

Lemma pool_step_inv limit p p' :
  pool_step limit p p' ->
  forall settled, pushed p = task <$> settled ->
  exists settled', pushed p' = task <$> settled'
    /\ settled' ++ running p' ++ queued p' ≡ₚ settled ++ running p ++ queued p.
Proof.
  destruct 1 as [u q run rs Hl|u run1 run2 q rs]; intros settled Hs; simpl in *.
  - exists settled. split; [done|]. by rewrite <- app_assoc.
  - exists (settled ++ [u]). split.
    + by rewrite fmap_app, Hs.
    + rewrite <- !app_assoc. simpl. f_equiv. by rewrite <- Permutation_middle.
Qed.

Lemma pool_rtc_inv limit p p' :
  rtc (pool_step limit) p p' ->
  forall settled, pushed p = task <$> settled ->
  exists settled', pushed p' = task <$> settled'
    /\ settled' ++ running p' ++ queued p' ≡ₚ settled ++ running p ++ queued p.
Proof.
  induction 1 as [p|p p1 p2 Hstep _ IH]; intros settled Hs.
  - by exists settled.
  - destruct (pool_step_inv _ _ _ Hstep settled Hs) as (s1 & Hs1 & Hp1).
    destruct (IH s1 Hs1) as (s2 & Hs2 & Hp2).
    exists s2. split; [done|]. by rewrite Hp2.
Qed.

(** When all tasks have settled, [rows] holds one row per URL, in the
    order of settlement. *)
Lemma pool_run_rows limit urls rows :
  pool_run limit urls rows -> exists order, order ≡ₚ urls /\ rows = task <$> order.
Proof.
  intros Hrun. destruct (pool_rtc_inv _ _ _ Hrun [] eq_refl) as (order & Hrows & Hperm).
  simpl in *. exists order. split; [|done]. by rewrite app_nil_r in Hperm.
Qed.

(** The limiter lets every task run, whatever the limit from one up. *)
Lemma pool_run_exists limit urls :
  (1 <= limit)%nat -> pool_run limit urls (task <$> urls).
Proof.
  intros Hl. unfold pool_run.
  assert (forall rs, rtc (pool_step limit) (Pool urls [] rs) (Pool [] [] (rs ++ (task <$> urls)))) as G.
  { induction urls as [|u urls IH]; intros rs.
    - rewrite fmap_nil, app_nil_r. apply rtc_refl.
    - rewrite fmap_cons.
      eapply rtc_l; [apply pool_start; simpl; lia|].
      eapply rtc_l; [apply (pool_settle limit u [] [])|]. cbn [app].
      replace (rs ++ task u :: (task <$> urls)) with ((rs ++ [task u]) ++ (task <$> urls))
        by (by rewrite <- app_assoc).
      apply IH. }
  apply (G []).
Qed.

Lemma main_writes fuel cfg found order :
  source_urls fuel cfg = Some (Ok found) ->
  (1 <= CONCURRENCY cfg)%nat ->
  order ≡ₚ dedupe found ->
  main fuel cfg order = Some (Wrote (task <$> dedupe found)).
Proof.
  intros Hs Hc Hp. unfold main. rewrite Hs.
  destruct (Nat.ltb_spec (CONCURRENCY cfg) 1); [lia|].
  rewrite orderedRows_settled; [done|].
  intros u Hu. by rewrite Hp.
Qed.

Lemma main_exits fuel cfg e order :
  source_urls fuel cfg = Some (Err e) -> main fuel cfg order = Some (Exit1 e).
Proof. intros Hs. unfold main. by rewrite Hs. Qed.

(** C2: the rows handed to the writer are one per deduplicated URL,
    in first-seen input order, and do not depend on the order in
    which the tasks settle.  Their number is the number of distinct
    non-empty input URLs. *)
Theorem rows_follow_input_order fuel cfg found order :
  source_urls fuel cfg = Some (Ok found) ->
  (1 <= CONCURRENCY cfg)%nat ->
  order ≡ₚ dedupe found ->
  exists rows,
    main fuel cfg order = Some (Wrote rows)
    /\ rows = task <$> dedupe found
    /\ row_url <$> rows = dedupe found
    /\ length rows =
         size (list_to_set (filter (fun u => nonempty u = true) found) : gset jsstring)
    /\ length (csv_lines rows) = S (length (dedupe found))
    /\ NoDup (dedupe found)
    /\ dedupe [] = []
    /\ (forall l x, dedupe (l ++ [x]) =
                     if bool_decide (x ∈ l \/ x = []) then dedupe l else dedupe l ++ [x])
    /\ (forall settled, pool_run (CONCURRENCY cfg) (dedupe found) settled ->
          settled ≡ₚ rows /\ orderedRows (dedupe found) settled = rows)
    /\ (exists settled, pool_run (CONCURRENCY cfg) (dedupe found) settled).
Proof.
  intros Hs Hc Hp. exists (task <$> dedupe found).
  split; [by apply main_writes|]. split; [done|].
  assert (row_url <$> (task <$> dedupe found) = dedupe found) as Hurls.
  { rewrite <- list_fmap_compose. rewrite <- (list_fmap_id (dedupe found)) at 2.
    apply list_fmap_ext. intros i u _. apply row_url_task. }
  split; [done|].
  split; [by rewrite length_fmap, dedupe_length|].
  split; [unfold csv_lines; simpl; by rewrite !length_fmap|].
  split; [apply NoDup_dedupe|]. split; [done|].
  split; [apply dedupe_snoc|]. split.
  - intros settled Hrun.
    destruct (pool_run_rows _ _ _ Hrun) as (order' & Hperm & ->).
    split; [by rewrite Hperm|].
    apply orderedRows_settled. intros u Hu. by rewrite Hperm.
  - exists (task <$> dedupe found). by apply pool_run_exists.
Qed.

(** C10: URLs are deduplicated by the equality of their text.  Two
    input URLs that differ anywhere are both kept, and each has a row
    of its own; a trailing slash, the case of a letter of the host or
    a fragment makes a different URL. *)
Theorem dedupe_is_exact_text :
  (forall fuel cfg found order x y,
      source_urls fuel cfg = Some (Ok found) ->
      (1 <= CONCURRENCY cfg)%nat ->
      order ≡ₚ dedupe found ->
      x ∈ found -> y ∈ found -> x ≠ y -> x ≠ [] -> y ≠ [] ->
      exists rows i j,
        main fuel cfg order = Some (Wrote rows)
        /\ i ≠ j
        /\ row_url <$> rows !! i = Some x
        /\ row_url <$> rows !! j = Some y)
  /\ (forall l x, x ∈ dedupe l <-> x ∈ l /\ x ≠ [])
  /\ dedupe [js "https://a.com/p"; js "https://a.com/p/"; js "https://A.com/p";
             js "https://a.com/p#top"; js "https://a.com/p"]
     = [js "https://a.com/p"; js "https://a.com/p/"; js "https://A.com/p";
        js "https://a.com/p#top"].
Proof.
  split; [|split; [apply elem_of_dedupe | by vm_compute]].
  intros fuel cfg found order x y Hs Hc Hp Hx Hy Hxy Hx0 Hy0.
  assert (x ∈ dedupe found) as [i Hi]%list_elem_of_lookup_1 by by apply elem_of_dedupe.
  assert (y ∈ dedupe found) as [j Hj]%list_elem_of_lookup_1 by by apply elem_of_dedupe.
  exists (task <$> dedupe found), i, j.
  split; [by apply main_writes|].
  split; [intros ->; congruence|].
  rewrite !list_lookup_fmap, Hi, Hj. simpl. by rewrite !row_url_task.
Qed.

(** The row of a URL whose fetch fails: the task catches the error
    and pushes the URL with the reason and nothing else; every other
    task pushes what it would have pushed anyway, and the run goes on
    to the writer.  The writer has no column for the reason. *)
Lemma failed_fetch_record u reason :
  fetchHtml u = Err reason ->
  task u = ErrorRow u reason
  /\ row_get "url" (task u) = Some u
  /\ row_get "error" (task u) = Some reason
  /\ Forall (fun id => row_get id (task u) = None) content_columns
  /\ record_cells (task u) = u :: replicate 20 [].
Proof.
  intros Hf. unfold task. rewrite Hf. repeat split.
  unfold content_columns, headers. simpl. repeat constructor.
Qed.

(** A sitemap of sitemaps that lists itself is never resolved: no
    fuel suffices, as no depth of recursion does for the script. *)
Lemma getUrlsFromSitemap_cycle u parsed es rest :
  fetchSitemapXml u = Ok parsed -> urlset_url parsed = None ->
  sitemapindex_sitemap parsed = Some es -> first_locs es = u :: rest ->
  forall fuel, getUrlsFromSitemap fuel u = None.
Proof.
  intros Hf Hu Hi Hl. induction fuel as [|fuel IH]; [done|].
  simpl. rewrite Hf, Hu, Hi, Hl. simpl. by rewrite IH.
Qed.

(** A failed fetch leaves the run and the other rows alone: the
    rows handed to the writer hold, at the place of each URL, the row
    of that URL, which is the error row for a URL whose fetch fails. *)
Lemma failed_fetch_keeps_run fuel cfg found order :
  source_urls fuel cfg = Some (Ok found) ->
  (1 <= CONCURRENCY cfg)%nat ->
  order ≡ₚ dedupe found ->
  exists rows,
    main fuel cfg order = Some (Wrote rows)
    /\ (forall i u, dedupe found !! i = Some u -> rows !! i = Some (task u))
    /\ (forall u reason, u ∈ found -> u ≠ [] -> fetchHtml u = Err reason ->
          ErrorRow u reason ∈ rows).
Proof.
  intros Hs Hc Hp. exists (task <$> dedupe found).
  split; [by apply main_writes|]. split.
  - intros i u Hi. by rewrite list_lookup_fmap, Hi.
  - intros u reason Hu Hne Hf.
    destruct (failed_fetch_record u reason Hf) as (<- & _).
    apply list_elem_of_fmap. exists u. split; [done|]. by apply elem_of_dedupe.
Qed.

(** C9: a page list resolves to its locations in document order; a
    sitemap of sitemaps resolves to the concatenation, in document
    order, of what its children resolve to, and so through every
    level of a sitemap of finite nesting; a document of neither shape
    makes the resolution fail, the failure of a child is the failure
    of its parent, and a failed resolution ends the run with nothing
    written.  The list is deduplicated after the resolution. *)
Theorem sitemap_resolution :
  (forall fuel u parsed es,
      fetchSitemapXml u = Ok parsed -> urlset_url parsed = Some es ->
      getUrlsFromSitemap (S fuel) u = Some (Ok (first_locs es)))
  /\ (forall ls, Forall (fun l => l ≠ []) ls ->
        first_locs ((fun l => {| loc := Some [l] |}) <$> ls) = ls)
  /\ (forall fuel u parsed es lists,
        fetchSitemapXml u = Ok parsed -> urlset_url parsed = None ->
        sitemapindex_sitemap parsed = Some es ->
        Forall2 (fun c l => getUrlsFromSitemap fuel c = Some (Ok l)) (first_locs es) lists ->
        getUrlsFromSitemap (S fuel) u = Some (Ok (concat lists)))
  /\ (forall u t fuel,
        serves u t -> (height t <= fuel)%nat ->
        getUrlsFromSitemap fuel u = Some (Ok (flatten t)))
  /\ (forall fuel fuel' u res,
        (fuel <= fuel')%nat -> getUrlsFromSitemap fuel u = Some res ->
        getUrlsFromSitemap fuel' u = Some res)
  /\ (forall fuel u parsed,
        fetchSitemapXml u = Ok parsed -> urlset_url parsed = None ->
        sitemapindex_sitemap parsed = None ->
        getUrlsFromSitemap (S fuel) u = Some (Err unknown_sitemap_format))
  /\ (forall fuel u parsed es pre c post lists e,
        fetchSitemapXml u = Ok parsed -> urlset_url parsed = None ->
        sitemapindex_sitemap parsed = Some es ->
        first_locs es = pre ++ c :: post ->
        Forall2 (fun c l => getUrlsFromSitemap fuel c = Some (Ok l)) pre lists ->
        getUrlsFromSitemap fuel c = Some (Err e) ->
        getUrlsFromSitemap (S fuel) u = Some (Err e))
  /\ (forall fuel cfg c u e order,
        SITEMAP_URL cfg = Some (c :: u) ->
        getUrlsFromSitemap fuel (c :: u) = Some (Err e) ->
        main fuel cfg order = Some (Exit1 e))
  /\ (forall fuel cfg c u found order,
        SITEMAP_URL cfg = Some (c :: u) ->
        getUrlsFromSitemap fuel (c :: u) = Some (Ok found) ->
        (1 <= CONCURRENCY cfg)%nat -> order ≡ₚ dedupe found ->
        main fuel cfg order = Some (Wrote (task <$> dedupe found))).
Proof.
  repeat match goal with |- _ /\ _ => split end.
  - intros fuel u parsed es Hf Hu. simpl. by rewrite Hf, Hu.
  - intros ls Hls. unfold first_locs.
    induction Hls as [|l ls Hl _ IH]; [done|].
    rewrite fmap_cons. cbn [omap list_omap]. simpl.
    rewrite filter_cons_True by by destruct l.
    f_equal. exact IH.
  - intros fuel u parsed es lists Hf Hu Hi Hc. simpl. rewrite Hf, Hu, Hi.
    by rewrite (sub_sitemaps_ok _ _ lists).
  - intros u t fuel Hs Hh. by apply getUrlsFromSitemap_flatten.
  - intros fuel fuel' u res. apply getUrlsFromSitemap_mono.
  - intros fuel u parsed Hf Hu Hi. simpl. by rewrite Hf, Hu, Hi.
  - intros fuel u parsed es pre c post lists e Hf Hu Hi Hl Hpre He. simpl.
    rewrite Hf, Hu, Hi, Hl. by apply (sub_sitemaps_err _ _ _ _ _ lists).
  - intros fuel cfg c u e order Hc He. apply main_exits.
    unfold source_urls. by rewrite Hc.
  - intros fuel cfg c u found order Hc Hf Hl Hp. apply main_writes; [|done|done].
    unfold source_urls. by rewrite Hc.
Qed.

End PipelineProps.

(** The row of a URL depends on the fetch of that URL alone. *)
Lemma task_local (E : Env) pages u :
  pages u = @fetchHtml E u -> @task (with_fetch E pages) u = @task E u.
Proof. intros Hp. unfold task. simpl. by rewrite Hp. Qed.

(** *** Instances *)

Lemma rows_follow_input_order_witness :
  exists rows,
    @main site_env 0%nat (from_file "urls.txt") [site_b; site_a] = Some (Wrote rows)
    /\ row_url <$> rows = [site_a; site_b]
    /\ length rows = 2%nat.
Proof.
  destruct (@rows_follow_input_order site_env 0%nat (from_file "urls.txt")
              [site_a; site_a; site_b] [site_b; site_a])
    as (rows & Hm & Hrows & Hu & _).
  - reflexivity.
  - simpl. lia.
  - vm_compute. apply perm_swap.
  - exists rows. split; [exact Hm|]. split; [exact Hu|]. by rewrite Hrows.
Defined.

Lemma dedupe_is_exact_text_witness :
  exists rows i j,
    @main site_env 0%nat (from_file "variants.txt") [js "https://a.com/p/"; js "https://a.com/p"]
      = Some (Wrote rows)
    /\ i ≠ j
    /\ row_url <$> rows !! i = Some (js "https://a.com/p")
    /\ row_url <$> rows !! j = Some (js "https://a.com/p/").
Proof.
  apply (proj1 (@dedupe_is_exact_text site_env) 0%nat (from_file "variants.txt")
           [js "https://a.com/p"; js "https://a.com/p/"]).
  - reflexivity.
  - simpl. lia.
  - vm_compute. apply perm_swap.
  - by left.
  - right. by left.
  - by vm_compute.
  - by vm_compute.
  - by vm_compute.
Defined.

Lemma sitemap_resolution_witness :
  @getUrlsFromSitemap site_env 2%nat (js "https://site.com/sitemap.xml")
    = Some (Ok [site_a; site_b; site_c; site_a])
  /\ @main site_env 2%nat (from_sitemap "https://site.com/sitemap.xml") [site_b; site_a; site_c]
     = Some (Wrote (@task site_env <$> [site_a; site_b; site_c]))
  /\ @getUrlsFromSitemap site_env 2%nat (js "https://site.com/mixed.xml")
     = Some (Err unknown_sitemap_format)
  /\ @main site_env 2%nat (from_sitemap "https://site.com/mixed.xml") []
     = Some (Exit1 unknown_sitemap_format).
Proof.
  destruct (@sitemap_resolution site_env)
    as (_ & _ & Hindex & _ & _ & _ & Hprop & Hexit & Hrun).
  assert (@getUrlsFromSitemap site_env 2%nat (js "https://site.com/mixed.xml")
          = Some (Err unknown_sitemap_format)) as Hmixed.
  { eapply (Hprop 1%nat _ _ _ [js "https://site.com/s1.xml"] (js "https://site.com/feed.xml")
              [js "https://site.com/s2.xml"] [[site_a; site_b]]); try reflexivity.
    repeat constructor. }
  split; [|split; [|split]].
  - eapply (Hindex 1%nat _ _ _ [[site_a; site_b]; [site_c; site_a]]); try reflexivity.
    repeat constructor.
  - eapply (Hrun 2%nat _ _ _ [site_a; site_b; site_c; site_a]); try reflexivity.
    + simpl. lia.
    + vm_compute. apply perm_swap.
  - exact Hmixed.
  - eapply Hexit; [reflexivity | exact Hmixed].
Defined.

(** C1: a URL whose fetch fails still gets a record, with its URL
    and the reason and no content field, and the run goes on.  But no
    column of the header takes the reason: the line written for the
    URL is the URL followed by empty cells, the same line as for a
    page on which nothing was found.  On the small site, where the
    fetch of one page times out, the reason is in the record and
    nowhere in the lines written. *)
Theorem failed_fetch_reason_not_written :
  (forall (E : Env) u reason,
      @fetchHtml E u = Err reason ->
      @task E u = ErrorRow u reason
      /\ row_get "error" (@task E u) = Some reason
      /\ record_cells (@task E u) = u :: replicate 20 []
      /\ record_cells (@task E u) = record_cells (DataRow (blank_page u)))
  /\ ("error"%string ∉ headers)
  /\ @main site_env 0%nat (from_file "urls.txt") [site_b; site_a]
     = Some (Wrote [DataRow (blank_page site_a); ErrorRow site_b timeout_reason])
  /\ csv_lines [DataRow (blank_page site_a); ErrorRow site_b timeout_reason]
     = [js <$> headers; site_a :: replicate 20 []; site_b :: replicate 20 []]
  /\ Forall (fun line => timeout_reason ∉ line)
            (csv_lines [DataRow (blank_page site_a); ErrorRow site_b timeout_reason]).
Proof.
  split.
  { intros E u reason Hf.
    destruct (@failed_fetch_record E u reason Hf) as (Ht & _ & He & _ & Hc).
    split; [done|]. split; [done|]. by rewrite Hc. }
  split; [refine (bool_decide_eq_false_1 _ _); by vm_compute|].
  split; [by vm_compute|].
  split; [by vm_compute|].
  refine (bool_decide_unpack _ _). by vm_compute.
Qed.

(** ** The definitions at work *)

Example cleanText_examples :
  cleanText (js "  a  b ") = js "a b"
  /\ cleanText [160; 97; 8232; 98; 65279] = js "a b"
  /\ cleanText [32; 10] = [].
Proof. repeat split. Qed.

Example match_bg_examples :
  match_bg (js "BACKGROUND-IMAGE : URL( x )") = Some (js " x ")
  /\ match_bg (js "color:red;background-image:url(/a.png);background-image:url(/b.png)")
     = Some (js "/a.png")
  /\ match_bg (js "background-image:url('/a.png") = None
  /\ match_bg (js "background:url(/a.png)") = None.
Proof. repeat split. Qed.

Example getUrlsFromFile_example :
  @getUrlsFromFile site_env (js "urls.txt") = Ok [site_a; site_a; site_b]
  /\ split_lines [] (js "a" ++ [13; 10] ++ js "b" ++ [10; 13] ++ js "c")
     = [js "a"; js "b"; 13 :: js "c"].
Proof. split; reflexivity. Qed.

Example tiles_example :
  @tiles_of (page_env tiles_doc) tiles_doc (js "https://site.com/page")
  = [Tile (js "One") (js "First tile") (js "Read") (js "https://site.com/one");
     Tile (js "Two") [] [] [];
     Tile [] [] (js "Three") (js "https://site.com/three")].
Proof. reflexivity. Qed.

Example sitemap_cycle_example :
  forall fuel,
    @getUrlsFromSitemap
      (example_env (fun _ => []) no_pages
         (fun _ => Ok {| urlset_url := None;
                         sitemapindex_sitemap := Some [entry "https://site.com/loop.xml"] |})
         no_files)
      fuel (js "https://site.com/loop.xml") = None.
Proof. intros fuel. by eapply getUrlsFromSitemap_cycle. Qed.

(** * Further properties *)

(** ** Text normalisation *)

Lemma words_join_sp ws :
  Forall (fun w => w ≠ [] /\ Forall (fun c => is_js_space c = false) w) ws ->
  words (join_sp ws) = ws.
Proof.
  induction 1 as [|w ws [Hne Hw] Hws IH]; [done|].
  destruct ws as [|w' ws].
  - by apply words_single.
  - change (join_sp (w :: w' :: ws)) with (w ++ SP :: join_sp (w' :: ws)).
    rewrite words_word_then_space by done. by rewrite IH.
Qed.

Lemma words_well_formed s :
  Forall (fun w => w ≠ [] /\ Forall (fun c => is_js_space c = false) w) (words s).
Proof.
  apply Forall_and. split.
  - apply words_from_nonempty.
  - apply words_from_no_space. constructor.
Qed.

Lemma words_cleanText s : words (cleanText s) = words s.
Proof.
  rewrite cleanText_words. unfold normalize_spec.
  by rewrite words_join_sp by apply words_well_formed.
Qed.

Lemma cleanText_twice s : cleanText (cleanText s) = cleanText s.
Proof. rewrite (cleanText_words (cleanText s)). unfold normalize_spec.
  rewrite words_cleanText. symmetry. apply cleanText_words. Qed.

(** X1: normalising keeps the words of a text, and normalising a
    text that is already normalised changes nothing. *)
Theorem cleanText_idempotent s :
  words (cleanText s) = words s /\ cleanText (cleanText s) = cleanText s.
Proof. split; [apply words_cleanText | apply cleanText_twice]. Qed.

Lemma words_from_nil_iff cur s :
  words_from cur s = [] <-> cur = [] /\ Forall (fun c => is_js_space c = true) s.
Proof.
  revert cur. induction s as [|c s IH]; intros cur; simpl.
  - destruct cur; split; try done. by intros [? _].
  - destruct (is_js_space c) eqn:E.
    + destruct cur as [|d cur].
      * rewrite IH. split; intros [? ?]; split; try done; [by constructor | by eapply Forall_inv_tail].
      * split; [done | by intros [? _]].
    + rewrite IH. split; [by intros [? _]|].
      intros [_ Hf]. apply Forall_inv in Hf. congruence.
Qed.

Lemma cleanText_nil_iff s :
  cleanText s = [] <-> Forall (fun c => is_js_space c = true) s.
Proof.
  rewrite cleanText_words. unfold normalize_spec, words. split.
  - intros Hj. apply join_sp_nil_inv in Hj; [|apply words_from_nonempty].
    by apply words_from_nil_iff in Hj as [_ ?].
  - intros Hs. by rewrite (proj2 (words_from_nil_iff [] s)).
Qed.

(** ** Trimming and the URL file *)

Lemma trimStart_head s :
  match trimStart s with
  | c :: _ => is_js_space c = false
  | [] => True
  end.
Proof.
  induction s as [|c s IH]; [done|]. simpl.
  destruct (is_js_space c) eqn:E; [exact IH | exact E].
Qed.


Lemma trimEnd_prefix s : trimEnd s `prefix_of` s.
Proof.
  induction s as [|c s IH]; [done|]. simpl.
  destruct (trimEnd s) as [|d r] eqn:E.
  - destruct (is_js_space c); [apply prefix_nil | apply prefix_cons, prefix_nil].
  - by apply prefix_cons.
Qed.

Lemma trimEnd_last s c : last (trimEnd s) = Some c -> is_js_space c = false.
Proof.
  rewrite trimEnd_reverse, last_reverse.
  pose proof (trimStart_head (reverse s)) as Hh.
  destruct (trimStart (reverse s)); [done|]. simpl. by intros [= ->].
Qed.


Lemma trim_head s c : head (trim s) = Some c -> is_js_space c = false.
Proof.
  unfold trim. pose proof (trimStart_head s) as Hh.
  destruct (trimEnd_prefix (trimStart s)) as [k Hk].
  destruct (trimEnd (trimStart s)) as [|d r]; [done|].
  simpl. intros [= ->]. rewrite Hk in Hh. exact Hh.
Qed.

Lemma trim_last s c : last (trim s) = Some c -> is_js_space c = false.
Proof. apply trimEnd_last. Qed.


(** X2: the normal form of a text is empty exactly when the text
    holds nothing but whitespace; otherwise it begins and ends with a
    unit that is no whitespace. *)
Theorem cleanText_empty_iff s :
  (cleanText s = [] <-> Forall (fun c => is_js_space c = true) s)
  /\ (forall c, head (cleanText s) = Some c -> is_js_space c = false)
  /\ (forall c, last (cleanText s) = Some c -> is_js_space c = false).
Proof.
  split; [apply cleanText_nil_iff|].
  destruct s as [|d s]; [done|]. unfold cleanText.
  split; [apply trim_head | apply trim_last].
Qed.

Lemma split_lines_line l : forall cur rest,
  10 ∉ l -> last l ≠ Some 13 ->
  split_lines cur (l ++ 10 :: rest) = (reverse cur ++ l) :: split_lines [] rest.
Proof.
  induction l as [|c l IH]; intros cur rest Hnl Hcr; simpl.
  - by rewrite app_nil_r.
  - apply not_elem_of_cons in Hnl as [Hc Hnl].
    destruct (N.eqb_spec c 10) as [?|_]; [done|].
    assert (split_lines (c :: cur) (l ++ 10 :: rest)
            = (reverse cur ++ c :: l) :: split_lines [] rest) as Hgo.
    { rewrite IH; [by rewrite reverse_cons, <- app_assoc | done |].
      destruct l; [done|]. by rewrite last_cons_cons in Hcr. }
    destruct l as [|d l]; simpl in *.
    + destruct (N.eqb_spec c 13) as [->|_]; [done|]. exact Hgo.
    + apply not_elem_of_cons in Hnl as [Hd _].
      destruct (N.eqb_spec d 10) as [?|_]; [done|].
      rewrite andb_false_r. exact Hgo.
Qed.

Lemma split_lines_last l : forall cur,
  10 ∉ l -> split_lines cur l = [reverse cur ++ l].
Proof.
  induction l as [|c l IH]; intros cur Hnl; simpl.
  - by rewrite app_nil_r.
  - apply not_elem_of_cons in Hnl as [Hc Hnl].
    destruct (N.eqb_spec c 10) as [?|_]; [done|].
    assert (split_lines (c :: cur) l = [reverse cur ++ c :: l]) as Hgo.
    { rewrite IH by done. by rewrite reverse_cons, <- app_assoc. }
    destruct l as [|d l]; [exact Hgo|].
    apply not_elem_of_cons in Hnl as [Hd _].
    destruct (N.eqb_spec d 10) as [?|_]; [done|].
    rewrite andb_false_r. exact Hgo.
Qed.

Lemma join_split_lines raw : forall cur,
  13 ∉ raw -> join_lines (split_lines cur raw) = reverse cur ++ raw.
Proof.
  induction raw as [|c raw IH]; intros cur Hcr.
  - simpl. by rewrite app_nil_r.
  - apply not_elem_of_cons in Hcr as [Hc Hcr].
    assert (join_lines (split_lines (c :: cur) raw) = reverse cur ++ c :: raw) as Hgo.
    { rewrite IH by done. by rewrite reverse_cons, <- app_assoc. }
    cbn [split_lines]. destruct (N.eqb_spec c 10) as [->|_].
    + specialize (IH [] Hcr). simpl in IH.
      destruct (split_lines [] raw) as [|l ls] eqn:E.
      * destruct raw as [|d raw]; [done|]. simpl in E.
        destruct (d =? 10); [done|]. destruct raw; [done|].
        by destruct (_ && _).
      * change (join_lines (reverse cur :: l :: ls))
          with (reverse cur ++ 10 :: join_lines (l :: ls)).
        by rewrite IH.
    + destruct (N.eqb_spec c 13) as [?|_]; [done|]. simpl.
      destruct raw; exact Hgo.
Qed.

(** X3: splitting a text into lines and joining lines are inverse
    to each other: lines without a line feed, none of them ending in
    a carriage return, are read back as they were joined, and a text
    without carriage returns is the join of its lines.  A carriage
    return right before a line feed belongs to the line break. *)
Theorem split_lines_round_trip :
  (forall lines,
      lines ≠ [] ->
      Forall (fun l => (10 ∉ l) /\ last l ≠ Some 13) lines ->
      split_lines [] (join_lines lines) = lines)
  /\ (forall raw, 13 ∉ raw -> join_lines (split_lines [] raw) = raw)
  /\ (forall l rest, 10 ∉ l -> 13 ∉ l ->
        split_lines [] (l ++ 13 :: 10 :: rest) = l :: split_lines [] rest).
Proof.
  split; [|split].
  - intros lines Hne Hl. induction Hl as [|l lines [Hnl Hcr] Hls IH]; [done|].
    destruct lines as [|l' lines].
    + simpl. by rewrite split_lines_last.
    + change (join_lines (l :: l' :: lines)) with (l ++ 10 :: join_lines (l' :: lines)).
      rewrite split_lines_line by done. simpl reverse. simpl app at 1.
      by rewrite IH.
  - intros raw Hcr. by rewrite join_split_lines.
  - intros l rest Hnl Hcr.
    assert (forall cur, split_lines cur (l ++ 13 :: 10 :: rest)
                        = (reverse cur ++ l) :: split_lines [] rest) as G; [|apply (G [])].
    induction l as [|c l IH]; intros cur.
    + simpl. by rewrite app_nil_r.
    + apply not_elem_of_cons in Hnl as [Hc Hnl].
      apply not_elem_of_cons in Hcr as [Hc' Hcr].
      cbn [split_lines app].
      destruct (N.eqb_spec c 10) as [?|_]; [done|].
      destruct (N.eqb_spec c 13) as [?|_]; [done|]. simpl.
      rewrite IH by done. rewrite reverse_cons, <- app_assoc.
      by destruct l.
Qed.

Section SourceProps.

Context `{Env}.


End SourceProps.

(** ** The command line *)

Lemma indexOf_None name argv : indexOf name argv = None <-> name ∉ argv.
Proof.
  induction argv as [|a argv IH]; simpl.
  - split; [intros _; apply not_elem_of_nil | done].
  - rewrite not_elem_of_cons. case_bool_decide as Ha.
    + split; [done|]. intros [? _]. congruence.
    + destruct (indexOf name argv); simpl.
      * split; [done|]. intros [_ Hn]. by apply IH in Hn.
      * split; [|done]. intros _. split; [congruence | by apply IH].
Qed.

Lemma indexOf_first name pre post :
  name ∉ pre -> indexOf name (pre ++ name :: post) = Some (length pre).
Proof.
  induction pre as [|a pre IH]; intros Hn; simpl.
  - by rewrite bool_decide_eq_true_2.
  - apply not_elem_of_cons in Hn as [Ha Hn].
    rewrite bool_decide_eq_false_2 by congruence. by rewrite IH.
Qed.

(** X5: [getArg] gives the argument that follows the first
    occurrence of the option name, whatever that argument is, another
    option name included.  It gives [null] when the name does not
    occur, when its first occurrence is the last argument, and when
    the argument after it is the empty string; later occurrences of
    the name are not looked at. *)
Theorem getArg_first_occurrence name :
  (forall argv, name ∉ argv -> getArg name argv = None)
  /\ (forall pre c v post,
        name ∉ pre -> getArg name (pre ++ name :: (c :: v) :: post) = Some (c :: v))
  /\ (forall pre post, name ∉ pre -> getArg name (pre ++ name :: [] :: post) = None)
  /\ (forall pre, name ∉ pre -> getArg name (pre ++ [name]) = None)
  /\ (forall argv v, getArg name argv = Some v -> v ≠ [] /\ name ∈ argv /\ v ∈ argv).
Proof.
  assert (forall pre post, name ∉ pre ->
            getArg name (pre ++ name :: post) =
              match post with (c :: v) :: _ => Some (c :: v) | _ => None end) as G.
  { intros pre post Hn. unfold getArg. rewrite indexOf_first by done.
    rewrite lookup_app_r by lia.
    replace (length pre + 1 - length pre)%nat with 1%nat by lia.
    by destruct post as [|[|c v] post]. }
  split; [|split; [|split; [|split]]].
  - intros argv Hn. unfold getArg. by rewrite (proj2 (indexOf_None name argv)).
  - intros pre c v post Hn. by rewrite G.
  - intros pre post Hn. by rewrite G.
  - intros pre Hn. by rewrite G.
  - intros argv v Hg. unfold getArg in Hg.
    destruct (indexOf name argv) as [idx|] eqn:Ei; [|done].
    assert (name ∈ argv) as Hin.
    { destruct (decide (name ∈ argv)) as [?|Hn]; [done|].
      apply indexOf_None in Hn. congruence. }
    destruct (argv !! (idx + 1)%nat) as [[|c w]|] eqn:El; try done.
    injection Hg as <-. split; [done|]. split; [done|].
    by eapply list_elem_of_lookup_2.
Qed.

(** ** Deduplication, continued *)

Lemma set_to_array_sublist seen l : set_to_array seen l `sublist_of` l.
Proof.
  revert seen. induction l as [|a l IH]; intros seen; simpl.
  - constructor.
  - case_bool_decide; [apply sublist_cons | apply sublist_skip]; apply IH.
Qed.

Lemma set_to_array_NoDup_id l : forall seen : gset jsstring,
  NoDup l -> (forall x, x ∈ l -> x ∉ seen) -> set_to_array seen l = l.
Proof.
  induction l as [|a l IH]; intros seen Hnd Hs; [done|]. simpl.
  apply NoDup_cons in Hnd as [Ha Hnd].
  rewrite bool_decide_eq_false_2 by (apply Hs; by left).
  f_equal. apply IH; [done|]. intros x Hx.
  rewrite not_elem_of_union, elem_of_singleton. split.
  - intros ->. done.
  - apply Hs. by right.
Qed.

(** X6: the cleanup of line 239 leaves a list alone that has no
    duplicate and no empty entry; in particular, applied twice it
    does what it does applied once. *)
Theorem dedupe_clean_fixed :
  (forall l, NoDup l -> Forall (fun u => u ≠ []) l -> dedupe l = l)
  /\ (forall l, dedupe (dedupe l) = dedupe l).
Proof.
  assert (forall l, NoDup l -> Forall (fun u => u ≠ []) l -> dedupe l = l) as G.
  { intros l Hnd Hne. unfold dedupe.
    rewrite set_to_array_NoDup_id; [|done|intros x _; apply not_elem_of_empty].
    clear Hnd. induction Hne as [|u l Hu _ IH]; [done|].
    rewrite filter_cons_True by by destruct u. by rewrite IH. }
  split; [exact G|].
  intros l. apply G; [apply NoDup_dedupe|].
  apply Forall_forall. intros u Hu. by apply elem_of_dedupe in Hu as [_ ?].
Qed.

(** X7: the cleanup of line 239 only drops entries: what it returns
    is the input with some entries left out, the others in their
    order. *)
Theorem dedupe_sublist l : dedupe l `sublist_of` l.
Proof.
  unfold dedupe. etransitivity; [apply sublist_filter | apply set_to_array_sublist].
Qed.

(** ** The reordering of the rows *)

Lemma row_map_last rows u : forall m : gmap jsstring row,
  foldl (fun m r => <[row_url r := r]> m) m rows !! u =
    match last (filter (fun r => row_url r = u) rows) with
    | Some r => Some r
    | None => m !! u
    end.
Proof.
  induction rows as [|r rows IH]; intros m; [done|].
  cbn [foldl]. rewrite IH.
  destruct (decide (row_url r = u)) as [Hr|Hr].
  - rewrite filter_cons_True by done. rewrite last_cons.
    destruct (last (filter _ rows)); [done|]. by rewrite <- Hr, lookup_insert_eq.
  - rewrite filter_cons_False by done.
    destruct (last (filter _ rows)); [done|]. by rewrite lookup_insert_ne.
Qed.

(** X8: whatever the array [rows] holds, the reordering yields one
    row per URL of the list, in the order of the list, each with that
    URL: the last row of [rows] with the URL, and the bare [{ url }]
    when [rows] has none.  Rows with other URLs are left out. *)
Theorem orderedRows_by_url urls rows :
  orderedRows urls rows =
    (fun u => default (UrlRow u) (last (filter (fun r => row_url r = u) rows))) <$> urls
  /\ row_url <$> orderedRows urls rows = urls
  /\ length (orderedRows urls rows) = length urls
  /\ Forall (fun r => r ∈ rows \/ exists u, r = UrlRow u /\ u ∉ (row_url <$> rows))
            (orderedRows urls rows).
Proof.
  assert (orderedRows urls rows =
    (fun u => default (UrlRow u) (last (filter (fun r => row_url r = u) rows))) <$> urls) as E.
  { unfold orderedRows, row_map. apply list_fmap_ext. intros _ u _.
    rewrite row_map_last. by destruct (last _). }
  split; [exact E|]. split; [|split].
  - rewrite E, <- list_fmap_compose. rewrite <- (list_fmap_id urls) at 2.
    apply list_fmap_ext. intros _ u _. simpl.
    destruct (last _) as [r|] eqn:El; [|done]. simpl.
    apply last_Some_elem_of in El. by apply list_elem_of_filter in El as [? _].
  - unfold orderedRows. by rewrite length_fmap.
  - rewrite E. apply Forall_fmap, Forall_forall. intros u _. simpl.
    destruct (last _) as [r|] eqn:El; simpl.
    + left. apply last_Some_elem_of in El. by apply list_elem_of_filter in El as [_ ?].
    + right. exists u. split; [done|]. apply last_None in El.
      intros (r & Hr & Hin)%list_elem_of_fmap.
      assert (r ∈ filter (fun r => row_url r = u) rows) as Hf
        by (apply list_elem_of_filter; by split).
      rewrite El in Hf. by apply not_elem_of_nil in Hf.
Qed.

(** ** The record and the header *)

Lemma get_prop_is_Some id entries :
  is_Some (get_prop id entries) <-> id ∈ (fst <$> entries).
Proof.
  induction entries as [|[k v] entries IH]; simpl.
  - split; [by intros [? ?] | by intros ?%not_elem_of_nil].
  - rewrite elem_of_cons. case_bool_decide as Hk; simpl.
    + split; [intros _; by left | by eexists].
    + rewrite IH. split; [by right|]. intros [?|?]; [congruence | done].
Qed.

(** X9: the record [extractPageData] returns and the header of the
    file agree: the record has one property per column, under the
    same name and in the same order, and no other; the twenty-one
    names are distinct.  The objects pushed for a failed fetch have
    the property [url] and one property, [error], that is no
    column. *)
Theorem record_matches_header :
  (forall d, fst <$> row_entries (DataRow d) = headers)
  /\ NoDup headers
  /\ length headers = 21%nat
  /\ (forall d id, is_Some (row_get id (DataRow d)) <-> id ∈ headers)
  /\ (forall u e id,
        is_Some (row_get id (ErrorRow u e)) /\ id ∈ headers <-> id = "url"%string).
Proof.
  split; [done|]. split; [refine (bool_decide_unpack _ _); by vm_compute|].
  split; [done|]. split.
  - intros d id. unfold row_get. by rewrite get_prop_is_Some.
  - intros u e id. unfold row_get. rewrite get_prop_is_Some. simpl. split.
    + intros [[->|[->|?%not_elem_of_nil]%elem_of_cons]%elem_of_cons Hh]; [done| |done].
      exfalso. revert Hh. refine (bool_decide_eq_false_1 _ _). by vm_compute.
    + intros ->. split; [by left|]. by left.
Qed.

(** ** What the sources return, and how a run ends without output *)

Section SourceResults.

Context `{Env}.

Lemma first_locs_nonempty es : Forall (fun u => u ≠ []) (first_locs es).
Proof.
  apply Forall_forall. intros u [Hu _]%list_elem_of_filter. by destruct u.
Qed.

Lemma sub_sitemaps_nonempty resolve cs : forall all res,
  (forall c l, resolve c = Some (Ok l) -> Forall (fun u => u ≠ []) l) ->
  Forall (fun u => u ≠ []) all ->
  sub_sitemaps resolve cs all = Some (Ok res) ->
  Forall (fun u => u ≠ []) res.
Proof.
  induction cs as [|c cs IH]; intros all res Hr Hall; simpl.
  - by intros [= <-].
  - destruct (resolve c) as [[sub|e]|] eqn:E; [|done|done].
    apply IH; [done|]. apply Forall_app. split; [done | by eapply Hr].
Qed.

Lemma getUrlsFromSitemap_nonempty fuel : forall u l,
  getUrlsFromSitemap fuel u = Some (Ok l) -> Forall (fun u => u ≠ []) l.
Proof.
  induction fuel as [|fuel IH]; intros u l; [done|]. simpl.
  destruct (fetchSitemapXml u) as [parsed|e]; [|done].
  destruct (urlset_url parsed) as [us|].
  - intros [= <-]. apply first_locs_nonempty.
  - destruct (sitemapindex_sitemap parsed) as [ss|]; [|done].
    by apply sub_sitemaps_nonempty.
Qed.

(** X10: neither source ever returns an empty URL: the sitemap
    resolver filters every page list, at every level, and the file
    reader drops empty lines.  So on the list of either source the
    cleanup of line 239 removes duplicates and nothing else. *)
Theorem sources_return_no_empty_url fuel cfg found :
  source_urls fuel cfg = Some (Ok found) ->
  Forall (fun u => u ≠ []) found
  /\ dedupe found = set_to_array ∅ found
  /\ (forall u, u ∈ dedupe found <-> u ∈ found).
Proof.
  intros Hs.
  assert (Forall (fun u => u ≠ []) found) as Hne.
  { unfold source_urls in Hs.
    destruct (truthy (SITEMAP_URL cfg)); [by eapply getUrlsFromSitemap_nonempty|].
    destruct (truthy (URLS_FILE cfg)); [|done].
    unfold getUrlsFromFile in Hs. destruct (readFileSync _); [|done].
    injection Hs as <-. apply Forall_forall.
    intros u [Hu _]%list_elem_of_filter. by destruct u. }
  split; [done|]. split.
  - unfold dedupe.
    assert (Forall (fun u => u ≠ []) (set_to_array ∅ found)) as Hd.
    { apply Forall_forall. intros u [Hu _]%elem_of_set_to_array.
      by eapply Forall_forall in Hne. }
    induction Hd as [|u l Hu _ IH]; [done|].
    rewrite filter_cons_True by by destruct u. by rewrite IH.
  - intros u. rewrite elem_of_dedupe. split; [by intros [? _]|].
    intros Hu. split; [done|]. by eapply Forall_forall in Hne.
Qed.

(** X11: a run that cannot get its list of URLs ends with exit
    status 1 and writes nothing, whatever the order of settlement
    and the concurrency: without [--sitemap] and [--urls] the message
    asks for one of them, and a URL file that cannot be read gives
    the error of the read.  With [--sitemap] the URL file is not
    read at all. *)
Theorem no_url_list_no_output fuel cfg order :
  (truthy (SITEMAP_URL cfg) = false -> truthy (URLS_FILE cfg) = false ->
     main fuel cfg order = Some (Exit1 no_source_given))
  /\ (forall path e,
        truthy (SITEMAP_URL cfg) = false -> URLS_FILE cfg = Some path -> path ≠ [] ->
        readFileSync path = Err e ->
        main fuel cfg order = Some (Exit1 e))
  /\ (forall file,
        truthy (SITEMAP_URL cfg) = true ->
        main fuel cfg order =
        main fuel {| SITEMAP_URL := SITEMAP_URL cfg; URLS_FILE := file;
                     CONCURRENCY := CONCURRENCY cfg |} order).
Proof.
  split; [|split].
  - intros Hs Hf. unfold main, source_urls. by rewrite Hs, Hf.
  - intros path e Hs Hf Hp Hr. unfold main, source_urls, getUrlsFromFile.
    rewrite Hs, Hf. destruct path; [done|]. simpl. by rewrite Hr.
  - intros file Hs. unfold main, source_urls. simpl. by rewrite Hs.
Qed.

End SourceResults.

(** ** Extraction, continued *)

Section ExtractMore.

Context `{Env}.

Lemma first_filter_cases (P : node -> Prop) `{!forall n, Decision (P n)} (l : list node) :
  first (filter P l) = [] \/ exists n, first (filter P l) = [n] /\ P n.
Proof.
  unfold first. destruct (filter P l) as [|n k] eqn:E; [by left|].
  right. exists n. split; [by destruct k|].
  assert (n ∈ filter P l) as Hn by (rewrite E; by left).
  by apply list_elem_of_filter in Hn as [? _].
Qed.

Lemma tile_of_link_text pageUrl n :
  linkUrl (tile_of pageUrl n) ≠ [] -> linkTitle (tile_of pageUrl n) ≠ [].
Proof.
  unfold tile_of, tile_link. cbn [linkUrl linkTitle].
  destruct (first_filter_cases (fun a => nonempty (cleanText (text [a])) = true)
              (find sel_a [n])) as [->|(a & -> & Ha)].
  - done.
  - intros _. by destruct (cleanText (text [a])).
Qed.

(** X12: a link is never extracted without its text.  The banner
    button is the first anchor or button with a text, so a record
    with a button link has a button text; the link of a tile is
    taken from the first anchor with a text, so a tile with a link
    URL has a link title.  Hence a tile slot is filled exactly when
    its heading, its description or its link title is not empty. *)
Theorem link_never_without_text html pageUrl :
  exists r,
    extractPageData html pageUrl = Some r
    /\ (banner_button_link r ≠ [] -> banner_button_text r ≠ [])
    /\ Forall (fun t => linkUrl t ≠ [] -> linkTitle t ≠ []) (record_tiles r)
    /\ Forall (fun t => t ≠ empty_tile <->
                        heading t ≠ [] \/ description t ≠ [] \/ linkTitle t ≠ [])
              (record_tiles r).
Proof.
  destruct (extractPageData_returns html pageUrl)
    as (r & t1 & t2 & t3 & Hr & Ht & Hrt & _ & _ & _ & _ & Hbt & Hbl & _).
  exists r. split; [done|].
  assert (Forall (fun t => linkUrl t ≠ [] -> linkTitle t ≠ []) (record_tiles r)) as Hl.
  { rewrite Hrt, <- Ht. eapply Forall_impl; [apply tiles_of_candidates|].
    intros t [->|(n & _ & ->)]; [done | apply tile_of_link_text]. }
  split; [|split; [done|]].
  - rewrite Hbt, Hbl. unfold bannerBtn.
    destruct (first_filter_cases (fun n => nonempty (cleanText (text [n])) = true)
                (find sel_a_button (first (select sel_banner (cheerio_load html)))))
      as [->|(n & -> & Hn)]; [done|].
    intros _. by destruct (cleanText (text [n])).
  - eapply Forall_impl; [exact Hl|]. intros t Hlt. split.
    + intros Hne. destruct t as [[|a h] [|b d] [|c lt] lu]; simpl in *;
        try (by left); try (by right; left); try (by right; right).
      destruct lu; [done|]. exfalso. by apply Hlt.
    + intros [Hh|[Hd|Hk]] ->; done.
Qed.

(** X13: the tile slots are filled from the left: an empty slot is
    never followed by a filled one. *)
Theorem tiles_filled_from_left html pageUrl :
  exists r t1 t2 t3,
    extractPageData html pageUrl = Some r
    /\ record_tiles r = [t1; t2; t3]
    /\ (t1 = empty_tile -> t2 = empty_tile)
    /\ (t2 = empty_tile -> t3 = empty_tile).
Proof.
  destruct (extractPageData_returns html pageUrl)
    as (r & t1 & t2 & t3 & Hr & Ht & Hrt & _).
  exists r, t1, t2, t3. split; [done|]. split; [done|].
  rewrite tiles_of_spec in Ht.
  assert (Forall (fun t => t ≠ empty_tile) (kept_tiles (cheerio_load html) pageUrl)) as Hk.
  { apply Forall_forall. intros t Hin. unfold kept_tiles in Hin.
    apply elem_of_take in Hin as (i & Hin & _). apply list_elem_of_lookup_2 in Hin.
    apply list_elem_of_filter in Hin as [Hne _]. by intros ->. }
  destruct (kept_tiles (cheerio_load html) pageUrl) as [|k1 [|k2 [|k3 [|k4 ks]]]];
    simpl in Ht; try done; injection Ht as <- <- <-.
  - done.
  - apply Forall_cons in Hk as [Hk _]. done.
  - apply Forall_cons in Hk as [Hk1 [Hk2 _]%Forall_cons]. done.
  - apply Forall_cons in Hk as [Hk1 [Hk2 _]%Forall_cons]. done.
Qed.

Lemma tile_of_normalised pageUrl n :
  cleanText (heading (tile_of pageUrl n)) = heading (tile_of pageUrl n)
  /\ cleanText (description (tile_of pageUrl n)) = description (tile_of pageUrl n)
  /\ cleanText (linkTitle (tile_of pageUrl n)) = linkTitle (tile_of pageUrl n).
Proof. unfold tile_of. simpl. repeat split; apply cleanText_twice. Qed.

(** X14: every text field of an extracted record is in normal form:
    normalising it again changes nothing.  So no text field begins
    or ends with whitespace or holds a line break, a tab, a no-break
    space or two spaces in a row. *)
Theorem record_text_normalised html pageUrl :
  exists r,
    extractPageData html pageUrl = Some r
    /\ Forall (fun s => cleanText s = s /\ s = join_sp (words s))
         ([banner_title r; banner_description r; banner_button_text r;
           main_description r; video_heading r]
          ++ (heading <$> record_tiles r) ++ (description <$> record_tiles r)
          ++ (linkTitle <$> record_tiles r)).
Proof.
  destruct (extractPageData_returns html pageUrl)
    as (r & t1 & t2 & t3 & Hr & Ht & Hrt & _ & _ & Htitle & Hdesc & Hbt & _ & Hmain & Hvh & _).
  exists r. split; [done|].
  assert (forall s, cleanText s = s -> cleanText s = s /\ s = join_sp (words s)) as G.
  { intros s Hs. split; [done|]. rewrite <- Hs at 1. apply cleanText_words. }
  assert (Forall (fun t => cleanText (heading t) = heading t
                           /\ cleanText (description t) = description t
                           /\ cleanText (linkTitle t) = linkTitle t) (record_tiles r)) as Htiles.
  { rewrite Hrt, <- Ht. eapply Forall_impl; [apply tiles_of_candidates|].
    intros t [->|(n & _ & ->)]; [done | apply tile_of_normalised]. }
  apply Forall_app. split; [|repeat (apply Forall_app; split)].
  - rewrite Htitle, Hdesc, Hbt, Hmain, Hvh. unfold bannerTitle, bannerDescription.
    repeat (apply Forall_cons; split); try (by apply Forall_nil);
      try (apply G, cleanText_twice).
    apply G. destruct (cleanText (text (first (find sel_h1 _)))) as [|c t] eqn:E.
    + apply cleanText_twice.
    + cbn [or_else]. rewrite <- E. apply cleanText_twice.
  - apply Forall_fmap. eapply Forall_impl; [exact Htiles|]. intros t (? & _). by apply G.
  - apply Forall_fmap. eapply Forall_impl; [exact Htiles|]. intros t (_ & ? & _). by apply G.
  - apply Forall_fmap. eapply Forall_impl; [exact Htiles|]. intros t (_ & _ & ?). by apply G.
Qed.

(** X15: the banner title is the text of the first [h1] of the
    banner unless that text is missing or holds only whitespace; then
    it is the text of the first [h2].  Later headings of either level
    are not looked at. *)
Theorem banner_title_falls_back html pageUrl :
  exists r,
    extractPageData html pageUrl = Some r
    /\ (let banner := first (select sel_banner (cheerio_load html)) in
        let h1 := text (first (find sel_h1 banner)) in
        let h2 := text (first (find sel_h2 banner)) in
        (Forall (fun c => is_js_space c = true) h1 -> banner_title r = cleanText h2)
        /\ (~ Forall (fun c => is_js_space c = true) h1 ->
            banner_title r = cleanText h1 /\ banner_title r ≠ [])).
Proof.
  destruct (extractPageData_returns html pageUrl)
    as (r & t1 & t2 & t3 & Hr & _ & _ & _ & _ & Htitle & _).
  exists r. split; [done|]. cbv zeta. rewrite Htitle. unfold bannerTitle. split.
  - intros Hs. apply cleanText_nil_iff in Hs. by rewrite Hs.
  - intros Hs. rewrite <- cleanText_nil_iff in Hs.
    by destruct (cleanText (text (first (find sel_h1 _)))).
Qed.

End ExtractMore.

(** ** The style expression, continued *)

Lemma starts_with_app p s : starts_with p s = true -> exists rest, s = p ++ rest.
Proof.
  revert s. induction p as [|a p IH]; intros s; [by exists s|].
  destruct s as [|b s]; [done|]. simpl.
  intros [Hab Hp]%andb_true_iff. apply N.eqb_eq in Hab as ->.
  destruct (IH s Hp) as [rest ->]. by exists rest.
Qed.

Lemma lazy_dot_until_sound close s u :
  lazy_dot_until close s = Some u ->
  (exists rest, s = u ++ close ++ rest)
  /\ Forall (fun c => is_line_terminator c = false) u.
Proof.
  revert u. induction s as [|c s IH]; intros u; cbn [lazy_dot_until].
  - destruct (starts_with close []) eqn:E; [|done].
    intros [= <-]. split; [by apply starts_with_app | constructor].
  - destruct (starts_with close (c :: s)) eqn:E.
    + intros [= <-]. split; [by apply starts_with_app | constructor].
    + destruct (is_line_terminator c) eqn:El; [done|].
      destruct (lazy_dot_until close s) as [u'|]; [|done].
      intros [= <-]. destruct (IH u' eq_refl) as [[rest ->] Hu].
      split; [by exists rest | by constructor].
Qed.

Lemma match_lit_i_suffix lit s r : match_lit_i lit s = Some r -> exists p, s = p ++ r.
Proof.
  revert s. induction lit as [|a lit IH]; intros s; simpl.
  - intros [= <-]. by exists [].
  - destruct s as [|b s]; [done|]. destruct (_ =? _); [|done].
    intros [p ->]%IH. by exists (b :: p).
Qed.

Lemma trimStart_suffix s : exists p, s = p ++ trimStart s.
Proof.
  induction s as [|c s [p IH]]; [by exists []|]. simpl.
  destruct (is_js_space c); [|by exists []].
  exists (c :: p). simpl. by rewrite <- IH.
Qed.

Lemma match_bg_here_sound s u :
  match_bg_here s = Some u ->
  exists pre q post,
    s = pre ++ q ++ u ++ q ++ RPAREN :: post
    /\ (q = [] \/ q = [QUOTE] \/ q = [DQUOTE])
    /\ Forall (fun c => is_line_terminator c = false) u.
Proof.
  unfold match_bg_here.
  destruct (match_lit_i (js "background-image") s) as [r1|] eqn:E1; [|done].
  cbn [mbind option_bind].
  destruct (match_lit_i (js ":") (trimStart r1)) as [r2|] eqn:E2; [|done].
  cbn [mbind option_bind].
  destruct (match_lit_i (js "url(") (trimStart r2)) as [r3|] eqn:E3; [|done].
  cbn [mbind option_bind].
  apply match_lit_i_suffix in E1 as [p1 ->].
  apply match_lit_i_suffix in E2 as [p2 E2].
  apply match_lit_i_suffix in E3 as [p3 E3].
  destruct (trimStart_suffix r1) as [w1 Hw1]. destruct (trimStart_suffix r2) as [w2 Hw2].
  assert (exists pre, p1 ++ r1 = pre ++ r3) as [pre ->].
  { exists (p1 ++ w1 ++ p2 ++ w2 ++ p3).
    rewrite Hw1, E2, Hw2, E3 at 1. by rewrite <- !app_assoc. }
  assert (lazy_dot_until [RPAREN] r3 = Some u ->
          exists pre0 q post, pre ++ r3 = pre0 ++ q ++ u ++ q ++ RPAREN :: post
            /\ (q = [] \/ q = [QUOTE] \/ q = [DQUOTE])
            /\ Forall (fun c => is_line_terminator c = false) u) as Gplain.
  { intros [[rest ->] Hu]%lazy_dot_until_sound.
    exists pre, [], rest. split; [done|]. split; [by left | done]. }
  destruct r3 as [|q r4]; [done|].
  destruct (bool_decide (q = QUOTE) || bool_decide (q = DQUOTE)) eqn:Eq; [|exact Gplain].
  destruct (lazy_dot_until [q; RPAREN] r4) as [u'|] eqn:Eu; [|exact Gplain].
  intros [= <-]. apply lazy_dot_until_sound in Eu as [[rest ->] Hu].
  exists pre, [q], rest. split; [done|]. split; [|done].
  apply orb_true_iff in Eq as [E|E]; apply bool_decide_eq_true in E; subst q; auto.
Qed.

(** X16: what the style expression captures is really there: the
    captured URL stands in the style attribute right before a closing
    parenthesis, inside a pair of equal quotes or inside none, and it
    runs over no line break.  With C7 this makes the expression exact
    on well-formed declarations. *)
Theorem match_bg_sound style u :
  match_bg style = Some u ->
  exists pre q post,
    style = pre ++ q ++ u ++ q ++ RPAREN :: post
    /\ (q = [] \/ q = [QUOTE] \/ q = [DQUOTE])
    /\ Forall (fun c => is_line_terminator c = false) u.
Proof.
  induction style as [|c style IH]; cbn [match_bg].
  - destruct (match_bg_here []) eqn:E; [|done]. intros [= <-].
    by apply match_bg_here_sound.
  - destruct (match_bg_here (c :: style)) as [u'|] eqn:E.
    + intros [= <-]. by apply match_bg_here_sound.
    + intros (pre & q & post & -> & Hq & Hu)%IH.
      by exists (c :: pre), q, post.
Qed.

(** ** Rows and fetches *)

Section RowsAndFetches.

Context `{Env}.


End RowsAndFetches.

(** *** Instances *)


Lemma split_lines_round_trip_witness :
  split_lines [] (join_lines [js "https://site.com/a"; js "# note"; []])
  = [js "https://site.com/a"; js "# note"; []].
Proof.
  apply (proj1 split_lines_round_trip); [done|].
  refine (bool_decide_unpack _ _). by vm_compute.
Defined.

Lemma getArg_first_occurrence_witness :
  getArg (js "--sitemap") example_argv = Some (js "--out")
  /\ getArg (js "--urls") example_argv = None.
Proof.
  destruct (getArg_first_occurrence (js "--sitemap")) as (_ & Hfound & _).
  destruct (getArg_first_occurrence (js "--urls")) as (Habsent & _).
  split.
  - apply (Hfound [js "node"; js "scrape.js"] 45 (js "-out")
             [js "x.csv"; js "--sitemap"; js "https://site.com/sitemap.xml"]).
    refine (bool_decide_eq_false_1 _ _). by vm_compute.
  - apply Habsent. refine (bool_decide_eq_false_1 _ _). by vm_compute.
Defined.

Lemma dedupe_clean_fixed_witness : dedupe [site_a; site_b] = [site_a; site_b].
Proof.
  apply (proj1 dedupe_clean_fixed).
  - refine (bool_decide_unpack _ _). by vm_compute.
  - refine (bool_decide_unpack _ _). by vm_compute.
Defined.

Lemma sources_return_no_empty_url_witness :
  dedupe [site_a; site_a; site_b] = set_to_array ∅ [site_a; site_a; site_b].
Proof.
  apply (@sources_return_no_empty_url site_env 0%nat (from_file "urls.txt")).
  reflexivity.
Defined.

Lemma no_url_list_no_output_witness :
  @main site_env 0%nat (from_file "missing.txt") []
  = Some (Exit1 (js "ENOENT: no such file or directory")).
Proof.
  apply (proj1 (proj2 (@no_url_list_no_output site_env 0%nat (from_file "missing.txt") []))
           (js "missing.txt")); reflexivity || done.
Defined.

Lemma banner_title_falls_back_witness :
  exists r,
    @extractPageData (page_env blank_h1_doc) [] (js "https://site.com/page") = Some r
    /\ banner_title r = js "Second level".
Proof.
  destruct (@banner_title_falls_back (page_env blank_h1_doc) [] (js "https://site.com/page"))
    as (r & Hr & Hblank & _).
  exists r. split; [exact Hr|].
  apply Hblank. refine (bool_decide_unpack _ _). by vm_compute.
Defined.

Lemma match_bg_sound_witness :
  exists pre q post,
    js "background-image:url('/img/banner.jpg')"
    = pre ++ q ++ js "/img/banner.jpg" ++ q ++ RPAREN :: post
    /\ (q = [] \/ q = [QUOTE] \/ q = [DQUOTE])
    /\ Forall (fun c => is_line_terminator c = false) (js "/img/banner.jpg").
Proof. apply match_bg_sound. reflexivity. Defined.

